(** * Panchayat election: a shallow embedding of the election module

    The module under verification exports [createElection] (a closure over a
    candidate roster, a tally object and two voter sets), the validator
    factory [createVoteValidator], the pure counter [tallyPure] and the
    recursive counter [countVotesInRegions]. The functions of the pattern,
    blender, tiffin and rating modules follow.

    Modelling choices, all made once and used throughout:
    - a JavaScript value is a [value]; a finite number is a double whose
      value is an integer, given as that integer [Fin z], next to [NaN] and
      the two infinities; numbers with a fraction are not represented, and
      the two zeros are one number. The definitions add and multiply the
      integers exactly, which is what the code computes as long as the
      exact results are at most [2 ^ 53] in absolute value ([safe]); a
      property that depends on a sum or a product of numbers that a caller
      supplies is stated for such numbers. The counts of an election start
      at 0 and grow by one with each voter;
    - an object is a plain object, given as the finite map of its own
      enumerable properties. A property whose name the code writes out is
      read with [get_prop]; where the code computes the key, [member]
      reads the own property or else the member inherited from
      [Object.prototype]. Functions are opaque;
    - a [Map] is a finite map and a [Set] a finite set;
    - a candidate is a record of three strings and a voter id or candidate
      id passed to [castVote] is a string, as the data model has them; a
      voter passed to [registerVoter] or to a validator is any value;
    - a callback argument is either a function of its argument or something
      that is not callable; callbacks are pure;
    - [Array.prototype.sort] is given as a stable insertion sort: this is
      the order that the language fixes when the comparator is consistent,
      as the default comparator is when every reported count is a number;
    - the closure returned by [createElection] is the record [election], and
      every method takes the closure and returns the closure it leaves;
    - values carry no identity; where a property is about who can write to
      which object, the module [Store] keeps arrays and records in a store
      of objects and is related to the first model by [represents]. *)

From stdpp Require Import gmap strings list fin_maps sorting.

Local Open Scope string_scope.
Local Open Scope Z_scope.

(** ** JavaScript values *)

Inductive number := Fin (z : Z) | NaN | PosInf | NegInf.

#[warnings="-register-all"]
Inductive value :=
  | VUndefined
  | VNull
  | VBool (b : bool)
  | VNum (n : number)
  | VStr (s : string)
  | VObject (o : gmap string value)
  | VFunction.

(** [ToBoolean]. *)
Definition truthy (v : value) : bool :=
  match v with
  | VUndefined | VNull => false
  | VBool b => b
  | VNum (Fin z) => negb (z =? 0)
  | VNum NaN => false
  | VNum _ => true
  | VStr s => negb (s =? "")%string
  | VObject _ | VFunction => true
  end.

Definition typeof (v : value) : string :=
  match v with
  | VUndefined => "undefined"
  | VNull => "object"
  | VBool _ => "boolean"
  | VNum _ => "number"
  | VStr _ => "string"
  | VObject _ => "object"
  | VFunction => "function"
  end.

(** The own property [k] of an object [v], undefined when [v] has none.
    It is what [v.k] reads when [k] is none of the names of
    [Object_prototype_members] below, as for every property name that the
    code writes out ([id], [name], [age], [votes], ...). The code reads
    properties of objects only. *)
Definition get_prop (v : value) (k : string) : value :=
  match v with
  | VObject o => default VUndefined (o !! k)
  | _ => VUndefined
  end.

(** The names of the members that a plain object inherits from
    [Object.prototype]: the accessor [__proto__] and eleven functions. *)
Definition Object_prototype_members : list string :=
  ["__proto__"; "constructor"; "hasOwnProperty"; "isPrototypeOf";
   "propertyIsEnumerable"; "toLocaleString"; "toString"; "valueOf";
   "__defineGetter__"; "__defineSetter__"; "__lookupGetter__"; "__lookupSetter__"].

(** What [o[k]] reads on a plain object [o] that has no own property [k]:
    the member of [Object.prototype] of that name, if any. [__proto__]
    reads as [Object.prototype] itself, which has no enumerable property
    of its own and so is the object without properties. *)
Definition inherited (k : string) : value :=
  if (k =? "__proto__")%string then VObject ∅
  else if bool_decide (k ∈ Object_prototype_members) then VFunction
  else VUndefined.

(** [v[k]] for a key [k] that the code computes: the own property, or else
    the inherited member. *)
Definition member (v : value) (k : string) : value :=
  match v with
  | VObject o =>
      match o !! k with
      | Some x => x
      | None => inherited k
      end
  | _ => VUndefined
  end.

(** [s.length] of a string value. *)
Definition js_length (v : value) : Z :=
  match v with
  | VStr s => Z.of_nat (String.length s)
  | _ => 0
  end.

Definition Number_isFinite (v : value) : bool :=
  match v with
  | VNum (Fin _) => true
  | _ => false
  end.

(** [a ?? b]. *)
Definition nullish (a b : value) : value :=
  match a with
  | VUndefined | VNull => b
  | _ => a
  end.

(** [ToNumber]. It is exact on undefined, null, booleans and numbers. A
    string is not parsed and an object or a function is not asked for its
    primitive value: they give [NaN], as the members inherited from
    [Object.prototype] do, the only objects that meet an arithmetic
    operator below (in the default order of [getResults]). Every other
    operand is a number: the validators guard with [Number.isFinite], and
    a tally holds numbers only (see [tally_is_numeric]). *)
Definition to_number (v : value) : number :=
  match v with
  | VUndefined => NaN
  | VNull => Fin 0
  | VBool b => Fin (if b then 1 else 0)
  | VNum n => n
  | VStr _ => NaN
  | VObject _ | VFunction => NaN
  end.

Definition num_neg (a : number) : number :=
  match a with
  | Fin z => Fin (- z)
  | NaN => NaN
  | PosInf => NegInf
  | NegInf => PosInf
  end.

Definition num_add (a b : number) : number :=
  match a, b with
  | NaN, _ | _, NaN => NaN
  | Fin x, Fin y => Fin (x + y)
  | PosInf, NegInf | NegInf, PosInf => NaN
  | PosInf, _ | _, PosInf => PosInf
  | NegInf, _ | _, NegInf => NegInf
  end.

Definition num_sub (a b : number) : number := num_add a (num_neg b).

Definition num_ltb (a b : number) : bool :=
  match a, b with
  | NaN, _ | _, NaN => false
  | Fin x, Fin y => x <? y
  | NegInf, NegInf => false
  | NegInf, _ => true
  | _, NegInf => false
  | PosInf, _ => false
  | _, PosInf => true
  end.

(** [a < b] and [a - b] on values. *)
Definition js_lt (a b : value) : bool := num_ltb (to_number a) (to_number b).
Definition js_sub (a b : value) : number := num_sub (to_number a) (to_number b).

(** [a === b]. Objects and functions carry no identity in this model and
    two of them compare as different references. The default order of
    [getResults] is the one place where the same inherited member can meet
    itself (two candidates with the same id): the comparator then answers
    [NaN] here and 0 in the code, which [sort] takes for the same. *)
Definition strict_eq (a b : value) : bool :=
  match a, b with
  | VUndefined, VUndefined | VNull, VNull => true
  | VBool x, VBool y => bool_decide (x = y)
  | VNum (Fin x), VNum (Fin y) => x =? y
  | VNum PosInf, VNum PosInf | VNum NegInf, VNum NegInf => true
  | VStr x, VStr y => (x =? y)%string
  | _, _ => false
  end.

(** ** Arrays: [Array.prototype.sort]

    The language requires [sort] to be stable and, for a consistent
    comparator, to return the elements in comparator order. A stable
    insertion sort is the model: [x] moves behind [y] only when
    [comparefn(x, y) > 0]; a [NaN] result counts as [0]. *)

Definition positive_result (n : number) : bool := num_ltb (Fin 0) n.

Fixpoint sort_insert {A} (comparefn : A → A → number) (x : A) (l : list A) : list A :=
  match l with
  | [] => [x]
  | y :: l' =>
      if positive_result (comparefn x y) then y :: sort_insert comparefn x l'
      else x :: l
  end.

Definition array_sort {A} (comparefn : A → A → number) (l : list A) : list A :=
  foldr (sort_insert comparefn) [] l.

(** [new Map(pairs)]: a later pair with the same key replaces an earlier one. *)
Definition new_Map {V} (pairs : list (string * V)) : gmap string V :=
  foldl (λ m kv, <[kv.1 := kv.2]> m) ∅ pairs.

(** ** tallyPure *)

Definition tallyPure (currentTally : value) (candidateId : string) : value :=
  let safe :=
    if truthy currentTally && (typeof currentTally =? "object")%string
    then match currentTally with VObject o => o | _ => ∅ end
    else ∅ in
  let current :=
    if Number_isFinite (member (VObject safe) candidateId)
    then to_number (member (VObject safe) candidateId)
    else Fin 0 in
  VObject (<[candidateId := VNum (num_add current (Fin 1))]> safe).

(** ** createVoteValidator *)

(** The [rules] argument: absent (falsy), or an object whose [minAge] is any
    value and whose [requiredFields] is an array of field names or not an
    array. *)
Record rules_object := {
  minAge : value;
  requiredFields : option (list string);
}.

Record validation := {
  valid : bool;
  reason : option string;
}.

(** The [for ... of] loop over the required fields of the returned function:
    [Some r] when the loop returns [r], [None] when it runs to its end. *)
Fixpoint check_fields (voter : value) (fields : list string) : option validation :=
  match fields with
  | [] => None
  | field :: rest =>
      let v := member voter field in
      if strict_eq v VUndefined || strict_eq v VNull
      then Some {| valid := false; reason := Some ("missing field: " +:+ field) |}
      else if (typeof v =? "string")%string && (js_length v =? 0)
      then Some {| valid := false; reason := Some ("missing field: " +:+ field) |}
      else check_fields voter rest
  end.

Definition createVoteValidator (rules : option rules_object) (voter : value) : validation :=
  let minAge :=
    match rules with
    | Some r => if Number_isFinite (minAge r) then minAge r else VNum (Fin 18)
    | None => VNum (Fin 18)
    end in
  let requiredFields :=
    match rules with
    | Some r => default [] (requiredFields r)
    | None => []
    end in
  if negb (truthy voter) || negb (typeof voter =? "object")%string
  then {| valid := false; reason := Some "invalid voter" |}
  else
    match check_fields voter requiredFields with
    | Some r => r
    | None =>
        if negb (Number_isFinite (get_prop voter "age")) || js_lt (get_prop voter "age") minAge
        then {| valid := false; reason := Some "underage" |}
        else {| valid := true; reason := None |}
    end.

(** ** createElection *)

Record candidate := {
  c_id : string;
  c_name : string;
  c_party : string;
}.

(** A record [{ id, name, party, votes }] built by [getResults]. *)
Record result := {
  r_id : string;
  r_name : string;
  r_party : string;
  r_votes : value;
}.

(** The argument [{ voterId, candidateId }] of the success callback. *)
Record receipt := {
  voterId : string;
  candidateId : string;
}.

(** A callback argument: [Some f] for a function, [None] for any value
    whose [typeof] is not ['function']. *)
Definition callback (A : Type) : Type := option (A → value).

(** [typeof cb === 'function' ? cb : () => undefined]. *)
Definition function_or_noop {A} (cb : callback A) : A → value :=
  match cb with
  | Some f => f
  | None => λ _, VUndefined
  end.

(** The variables the methods close over. The first three are [const] and
    built once; [votes] is rebound by [castVote]; the two sets are mutated
    in place and never handed out. *)
Record election := {
  candidateList : list candidate;
  candidateById : gmap string candidate;
  candidateIndex : gmap string Z;
  votes : value;
  registeredVoters : gset string;
  votedVoters : gset string;
}.

(** [candidates] is [None] when the argument is not an array. *)
Definition createElection (candidates : option (list candidate)) : election :=
  let candidateList := default [] candidates in
  {| candidateList := candidateList;
     candidateById := new_Map ((λ c, (c_id c, c)) <$> candidateList);
     candidateIndex := new_Map (imap (λ idx c, (c_id c, Z.of_nat idx)) candidateList);
     votes := VObject ∅;
     registeredVoters := ∅;
     votedVoters := ∅ |}.

Definition isValidVoter (voter : value) : bool :=
  if negb (truthy voter) || negb (typeof voter =? "object")%string then false
  else if negb (typeof (get_prop voter "id") =? "string")%string
          || (js_length (get_prop voter "id") =? 0) then false
  else if negb (typeof (get_prop voter "name") =? "string")%string
          || (js_length (get_prop voter "name") =? 0) then false
  else if negb (Number_isFinite (get_prop voter "age"))
          || js_lt (get_prop voter "age") (VNum (Fin 18)) then false
  else true.

(** The key under which [registeredVoters.has(voter.id)] looks: reached only
    for a valid voter, whose [id] is a string. *)
Definition id_of (voter : value) : string :=
  match get_prop voter "id" with
  | VStr s => s
  | _ => ""
  end.

Definition registerVoter (voter : value) (e : election) : election * bool :=
  if negb (isValidVoter voter) then (e, false)
  else if bool_decide (id_of voter ∈ registeredVoters e) then (e, false)
  else
    ({| candidateList := candidateList e;
        candidateById := candidateById e;
        candidateIndex := candidateIndex e;
        votes := votes e;
        registeredVoters := {[id_of voter]} ∪ registeredVoters e;
        votedVoters := votedVoters e |}, true).

Definition castVote (voterId candidateId : string)
    (onSuccess : callback receipt) (onError : callback string)
    (e : election) : election * value :=
  let successCb := function_or_noop onSuccess in
  let errorCb := function_or_noop onError in
  if negb (bool_decide (voterId ∈ registeredVoters e)) then
    (e, errorCb "voter not registered")
  else if negb (bool_decide (is_Some (candidateById e !! candidateId))) then
    (e, errorCb "invalid candidate")
  else if bool_decide (voterId ∈ votedVoters e) then
    (e, errorCb "voter already voted")
  else
    ({| candidateList := candidateList e;
        candidateById := candidateById e;
        candidateIndex := candidateIndex e;
        votes := tallyPure (votes e) candidateId;
        registeredVoters := registeredVoters e;
        votedVoters := {[voterId]} ∪ votedVoters e |},
     successCb {| voterId := voterId; candidateId := candidateId |}).

(** The comparator of the default order; it closes over [candidateIndex]. *)
Definition default_order (candidateIndex : gmap string Z) (a b : result) : number :=
  if negb (strict_eq (r_votes b) (r_votes a)) then js_sub (r_votes b) (r_votes a)
  else num_sub (Fin (default 0 (candidateIndex !! r_id a)))
               (Fin (default 0 (candidateIndex !! r_id b))).

(** [sortFn] is [Some f] for a comparator function, [None] otherwise. *)
Definition getResults (sortFn : option (result → result → number))
    (e : election) : list result :=
  let results :=
    (λ c, {| r_id := c_id c;
             r_name := c_name c;
             r_party := c_party c;
             r_votes := nullish (member (votes e) (c_id c)) (VNum (Fin 0)) |})
      <$> candidateList e in
  match sortFn with
  | Some f => array_sort f results
  | None => array_sort (default_order (candidateIndex e)) results
  end.

(** [None] is [null]; [Some w] is the copy [{ ...winner }]. *)
Definition getWinner (e : election) : option candidate :=
  let results := getResults None e in
  match results with
  | [] => None
  | first :: _ =>
      if strict_eq (r_votes first) (VNum (Fin 0)) then None
      else
        match candidateById e !! r_id first with
        | Some winner =>
            Some {| c_id := c_id winner; c_name := c_name winner; c_party := c_party winner |}
        | None => None
        end
  end.

(** ** Sequences of calls on one election *)

Inductive operation :=
  | RegisterVoter (voter : value)
  | CastVote (voterId candidateId : string)
             (onSuccess : callback receipt) (onError : callback string)
  | GetResults (sortFn : option (result → result → number))
  | GetWinner.

(** The closure an operation leaves; the two queries leave it as it was. *)
Definition perform (e : election) (op : operation) : election :=
  match op with
  | RegisterVoter voter => (registerVoter voter e).1
  | CastVote v c onSuccess onError => (castVote v c onSuccess onError e).1
  | GetResults _ | GetWinner => e
  end.

Definition run (ops : list operation) (e : election) : election :=
  foldl perform e ops.

(** ** Reading a tally and a roster (specification side) *)

(** The count a tally holds for an id: its finite number, 0 otherwise. *)
Definition vote_count (tally : value) (cid : string) : Z :=
  match get_prop tally cid with
  | VNum (Fin z) => z
  | _ => 0
  end.

(** The object that holds the counts of [t]. *)
Definition tally_object (t : gmap string Z) : value :=
  VObject ((λ z, VNum (Fin z)) <$> t).

Definition distinct_ids (roster : list candidate) : Prop :=
  NoDup (c_id <$> roster).

(** Every own property of the tally is a count of at least one. *)
Definition numeric_tally (tally : value) : Prop :=
  ∃ o, tally = VObject o ∧ ∀ k v, o !! k = Some v → ∃ z, v = VNum (Fin z) ∧ 0 < z.

(** ** Voters and rules (specification side) *)

(** A field value that counts as missing. *)
Definition missing (v : value) : Prop :=
  v = VUndefined ∨ v = VNull ∨ v = VStr "".

#[global] Instance missing_dec v : Decision (missing v).
Proof.
  unfold missing.
  destruct v as [| |b|n|s|o|];
    try (right; intros [?|[?|?]]; discriminate);
    try (left; auto; fail).
  destruct (decide (s = "")) as [->|Hs]; [left; auto|].
  right. intros [?|[?|?]]; congruence.
Defined.

(** The minimum age in force: [rules.minAge] when it is a finite number,
    18 otherwise. *)
Definition min_age_of (rules : option rules_object) : Z :=
  match rules with
  | Some {| minAge := VNum (Fin z) |} => z
  | _ => 18
  end.

(** The required fields in force: [rules.requiredFields] when it is an
    array, none otherwise. *)
Definition fields_of (rules : option rules_object) : list string :=
  match rules with
  | Some {| requiredFields := Some fields |} => fields
  | _ => []
  end.

(** The object [o] has a finite numeric [age] of at least [m]. *)
Definition finite_age_at_least (o : gmap string value) (m : Z) : Prop :=
  ∃ a, o !! "age" = Some (VNum (Fin a)) ∧ m ≤ a.

(** [voter] is an object with a non-empty string [id] (namely [vid]), a
    non-empty string [name] and a finite numeric [age] of at least 18. *)
Definition well_formed_voter (voter : value) (vid : string) : Prop :=
  ∃ o name,
    voter = VObject o ∧
    o !! "id" = Some (VStr vid) ∧ vid ≠ "" ∧
    o !! "name" = Some (VStr name) ∧ name ≠ "" ∧
    finite_age_at_least o 18.

(** The closure [e] with [vid] added to the registered set. *)
Definition with_registered (vid : string) (e : election) : election :=
  {| candidateList := candidateList e;
     candidateById := candidateById e;
     candidateIndex := candidateIndex e;
     votes := votes e;
     registeredVoters := {[vid]} ∪ registeredVoters e;
     votedVoters := votedVoters e |}.

(** The closure [e] after an accepted vote of [v] for [c]. *)
Definition with_vote (v c : string) (e : election) : election :=
  {| candidateList := candidateList e;
     candidateById := candidateById e;
     candidateIndex := candidateIndex e;
     votes := tallyPure (votes e) c;
     registeredVoters := registeredVoters e;
     votedVoters := {[v]} ∪ votedVoters e |}.

(** [c] is the id of a candidate of the roster. *)
Definition known_candidate (roster : list candidate) (c : string) : Prop :=
  c ∈ c_id <$> roster.

#[global] Instance known_candidate_dec roster c : Decision (known_candidate roster c).
Proof. unfold known_candidate. apply _. Defined.

(** What every closure made by [createElection roster] satisfies, whatever
    was called on it since. *)
Definition election_inv (roster : list candidate) (e : election) : Prop :=
  candidateList e = roster ∧
  candidateById e = new_Map ((λ c, (c_id c, c)) <$> roster) ∧
  candidateIndex e = new_Map (imap (λ idx c, (c_id c, Z.of_nat idx)) roster) ∧
  numeric_tally (votes e) ∧
  votedVoters e ⊆ registeredVoters e ∧
  (votedVoters e = ∅ → votes e = VObject ∅).

(** ** Sample data *)

Definition voter_record (vid name : string) (age : Z) : value :=
  VObject (<["id" := VStr vid]> (<["name" := VStr name]> {["age" := VNum (Fin age)]})).

Definition sample_roster : list candidate :=
  [ {| c_id := "C1"; c_name := "Sarpanch Ram"; c_party := "Janata" |};
    {| c_id := "C2"; c_name := "Pradhan Sita"; c_party := "Lok" |} ].

(** The sample election after Mohan ("V1") has registered. *)
Definition sample_registered : election :=
  run [RegisterVoter (voter_record "V1" "Mohan" 25)] (createElection (Some sample_roster)).

(** The sample election after Mohan has voted for "C1". *)
Definition sample_voted : election :=
  (castVote "V1" "C1" None None sample_registered).1.

(** ** Results (specification side) *)

(** The record reported for candidate [c] under [tally]. *)
Definition row (tally : value) (c : candidate) : result :=
  {| r_id := c_id c;
     r_name := c_name c;
     r_party := c_party c;
     r_votes := VNum (Fin (vote_count tally (c_id c))) |}.

(** The record [getResults] builds for the candidate [c] under [tally]. *)
Definition record (tally : value) (c : candidate) : result :=
  {| r_id := c_id c;
     r_name := c_name c;
     r_party := c_party c;
     r_votes := nullish (member tally (c_id c)) (VNum (Fin 0)) |}.

(** No id of the roster names a member that the tally object inherits
    from [Object.prototype]. *)
Definition plain_ids (roster : list candidate) : Prop :=
  Forall (λ c, c_id c ∉ Object_prototype_members) roster.

#[global] Instance plain_ids_dec roster : Decision (plain_ids roster).
Proof. unfold plain_ids. apply _. Defined.

(** The roster with each candidate's original position. *)
Definition indexed (roster : list candidate) : list (nat * candidate) :=
  imap (λ i c, (i, c)) roster.

(** The default order: more votes first, and among equal votes the smaller
    original roster position first. *)
Definition ranks_before (tally : value) (p q : nat * candidate) : Prop :=
  vote_count tally (c_id q.2) < vote_count tally (c_id p.2)
  ∨ (vote_count tally (c_id p.2) = vote_count tally (c_id q.2) ∧ (p.1 < q.1)%nat).

(** A roster in which two candidates share the id "x". *)
Definition shared_id_roster : list candidate :=
  [ {| c_id := "x"; c_name := "Arjun"; c_party := "Janata" |};
    {| c_id := "y"; c_name := "Bhima"; c_party := "Lok" |};
    {| c_id := "x"; c_name := "Chitra"; c_party := "Kisan" |} ].

(** [comparefn] decides the order [R] between any two different elements of
    [dom]: a positive result puts the second argument first. *)
Definition decides {A} (comparefn : A → A → number) (R : relation A)
    (dom : list A) : Prop :=
  ∀ x y, x ∈ dom → y ∈ dom → x ≠ y →
    if positive_result (comparefn x y) then R y x else R x y.

(** The record of a candidate without votes. *)
Definition blank_row (c : candidate) : result :=
  {| r_id := c_id c; r_name := c_name c; r_party := c_party c; r_votes := VNum (Fin 0) |}.

(** A roster whose one candidate has the id "constructor". *)
Definition inherited_id_roster : list candidate :=
  [ {| c_id := "constructor"; c_name := "Devi"; c_party := "Janata" |} ].

(** The election over [shared_id_roster] after one accepted vote for "x". *)
Definition shared_id_voted : election :=
  run [RegisterVoter (voter_record "V1" "Mohan" 25); CastVote "V1" "x" None None]
      (createElection (Some shared_id_roster)).

(** ** The election over a store of objects

    Arrays and records are objects with an identity: a caller who holds a
    reference can write to the object it points to. This second model keeps
    the objects in a store, so that it shows which references the methods
    hand out. *)

Module Store.

Abbreviation loc := positive.

(** What a reference points to. *)
Inductive object :=
  | OCandidate (c : candidate)
  | OResult (r : result)
  | OTally (t : gmap string value)
  | OArray (elems : list loc).

Abbreviation store := (gmap loc object).

(** A new object: the store with it, and the reference to it. *)
Definition alloc (o : object) (σ : store) : store * loc :=
  (<[fresh (dom σ) := o]> σ, fresh (dom σ)).

Fixpoint alloc_all (os : list object) (σ : store) : store * list loc :=
  match os with
  | [] => (σ, [])
  | o :: os' =>
      let '(σ1, l) := alloc o σ in
      let '(σ2, ls) := alloc_all os' σ1 in
      (σ2, l :: ls)
  end.

Definition read_candidate (σ : store) (l : loc) : option candidate :=
  match σ !! l with Some (OCandidate c) => Some c | _ => None end.

Definition read_result (σ : store) (l : loc) : option result :=
  match σ !! l with Some (OResult r) => Some r | _ => None end.

Definition read_tally (σ : store) (l : loc) : option (gmap string value) :=
  match σ !! l with Some (OTally t) => Some t | _ => None end.

Definition read_array (σ : store) (l : loc) : option (list loc) :=
  match σ !! l with Some (OArray ls) => Some ls | _ => None end.

(** The variables the methods close over: [candidateList] refers to the
    private copy of the roster array, whose elements refer to the caller's
    candidate records; [candidateById] maps to the same records; [votes]
    refers to the current tally object. The two maps and the two sets are
    never handed out. *)
Record closure := {
  candidateList : loc;
  candidateById : gmap string loc;
  candidateIndex : gmap string Z;
  votes : loc;
  registeredVoters : gset string;
  votedVoters : gset string;
}.

(** [{ ...safe, [candidateId]: current + 1 }] for a tally object: the
    object literal is a new object. *)
Definition tallyPure (currentTally : loc) (candidateId : string)
    (σ : store) : option (store * loc) :=
  safe ← read_tally σ currentTally;
  match tallyPure (VObject safe) candidateId with
  | VObject t => Some (alloc (OTally t) σ)
  | _ => None
  end.

(** [candidateList.map(...)] builds one new record per candidate and a new
    array of them; [sort] orders that array in place and returns it. *)
Definition getResults (sortFn : option (result → result → number))
    (env : closure) (σ : store) : option (store * loc) :=
  roster ← read_array σ (candidateList env);
  candidates ← mapM (read_candidate σ) roster;
  tally ← read_tally σ (votes env);
  let records :=
    (λ c, {| r_id := c_id c;
             r_name := c_name c;
             r_party := c_party c;
             r_votes := nullish (member (VObject tally) (c_id c)) (VNum (Fin 0)) |})
      <$> candidates in
  let '(σ1, refs) := alloc_all (OResult <$> records) σ in
  let '(σ2, results) := alloc (OArray refs) σ1 in
  let comparefn := default (default_order (candidateIndex env)) sortFn in
  let sorted := array_sort (λ a b, comparefn a.2 b.2) (zip refs records) in
  Some (<[results := OArray sorted.*1]> σ2, results).

(** [None] is [null]; [Some l] refers to the copy [{ ...winner }]. *)
Definition getWinner (env : closure) (σ : store) : option (store * option loc) :=
  '(σ1, results) ← getResults None env σ;
  refs ← read_array σ1 results;
  match refs with
  | [] => Some (σ1, None)
  | first :: _ =>
      r ← read_result σ1 first;
      if strict_eq (r_votes r) (VNum (Fin 0)) then Some (σ1, None)
      else
        match candidateById env !! r_id r with
        | Some winner =>
            c ← read_candidate σ1 winner;
            let '(σ2, copy) :=
              alloc (OCandidate {| c_id := c_id c; c_name := c_name c;
                                   c_party := c_party c |}) σ1 in
            Some (σ2, Some copy)
        | None => Some (σ1, None)
        end
  end.

(** What a caller can do with references it holds: write [o] over each of
    the objects at [ls]. *)
Definition write_all (ls : list loc) (o : object) (σ : store) : store :=
  foldr (λ l σ', <[l := o]> σ') σ ls.

End Store.

(** The closure [env] over the store [σ] is the election [e]. *)
Definition represents (env : Store.closure) (σ : Store.store) (e : election) : Prop :=
  ∃ roster tally,
    Store.read_array σ (Store.candidateList env) = Some roster ∧
    mapM (Store.read_candidate σ) roster = Some (candidateList e) ∧
    (∀ k, (Store.candidateById env !! k) ≫= Store.read_candidate σ = candidateById e !! k) ∧
    (∀ k, is_Some (Store.candidateById env !! k) → is_Some (candidateById e !! k)) ∧
    Store.candidateIndex env = candidateIndex e ∧
    Store.read_tally σ (Store.votes env) = Some tally ∧
    votes e = VObject tally ∧
    Store.registeredVoters env = registeredVoters e ∧
    Store.votedVoters env = votedVoters e.

(** [σ'] keeps every object of [σ] as it is. *)
Definition keeps (σ σ' : Store.store) : Prop :=
  ∀ l, is_Some (σ !! l) → σ' !! l = σ !! l.

(** [σ'] is [σ] but for the objects at [ls]. *)
Definition same_but_at (ls : list Store.loc) (σ σ' : Store.store) : Prop :=
  ∀ l, l ∉ ls → σ' !! l = σ !! l.

(** A store with the sample roster, and the closure of a fresh election over
    it. *)
Definition sample_store : Store.store :=
  list_to_map
    [ (1%positive, Store.OCandidate {| c_id := "C1"; c_name := "Sarpanch Ram"; c_party := "Janata" |});
      (2%positive, Store.OCandidate {| c_id := "C2"; c_name := "Pradhan Sita"; c_party := "Lok" |});
      (3%positive, Store.OArray [1%positive; 2%positive]);
      (4%positive, Store.OTally ∅) ].

Definition sample_closure : Store.closure :=
  {| Store.candidateList := 3%positive;
     Store.candidateById := list_to_map [("C1", 1%positive); ("C2", 2%positive)];
     Store.candidateIndex := list_to_map [("C1", 0); ("C2", 1)];
     Store.votes := 4%positive;
     Store.registeredVoters := ∅;
     Store.votedVoters := ∅ |}.


(** ** countVotesInRegions *)

(** A value as [countVotesInRegions] sees it: [NotARegion] is a value that
    is falsy or not an object; [RegionObject votes subRegions] is an object
    whose [votes] property reads [votes] and whose [subRegions] property is
    the array [subRegions] of arbitrary values, or is not an array
    ([None]). *)
#[warnings="-register-all"]
Inductive region :=
  | NotARegion
  | RegionObject (votes : value) (subRegions : option (list region)).

Fixpoint countVotesInRegions (regionTree : region) : number :=
  match regionTree with
  | NotARegion => Fin 0
  | RegionObject votes subRegions =>
      let ownVotes := if Number_isFinite votes then to_number votes else Fin 0 in
      let reduce := foldl (λ sum child, num_add sum (countVotesInRegions child)) (Fin 0) in
      num_add ownVotes
        match subRegions with
        | Some subs => reduce subs
        | None => reduce []
        end
  end.

(** The regions of a tree, the tree itself first (specification side). *)
Fixpoint regions_of (regionTree : region) : list region :=
  match regionTree with
  | NotARegion => []
  | RegionObject _ subRegions =>
      regionTree ::
        match subRegions with
        | Some subs => foldr (λ child rest, (regions_of child ++ rest)%list) [] subs
        | None => []
        end
  end.

(** The votes a region holds itself: its finite [votes], 0 otherwise. *)
Definition own_votes (r : region) : Z :=
  match r with
  | RegionObject (VNum (Fin z)) _ => z
  | _ => 0
  end.

(** The sum of a list of integers. *)
Definition sum_list (l : list Z) : Z := foldr Z.add 0 l.

(** ** Elections: more of the specification side *)

(** The count a result record reports. *)
Definition result_count (r : result) : Z :=
  match r_votes r with
  | VNum (Fin z) => z
  | _ => 0
  end.

(** A vote of [v] for [c] is accepted by [e]. *)
Definition accepts (roster : list candidate) (e : election) (v c : string) : Prop :=
  v ∈ registeredVoters e ∧ known_candidate roster c ∧ v ∉ votedVoters e.

#[global] Instance accepts_dec roster e v c : Decision (accepts roster e v c).
Proof. unfold accepts. apply _. Defined.

(** The rules the module's documentation gives as its example. *)
Definition documented_rules : rules_object :=
  {| minAge := VNum (Fin 18); requiredFields := Some ["id"; "name"; "age"] |}.


(** The order [getResults()] keeps in every election: more votes first, and
    among equal votes the smaller [candidateIndex] of the id first (positions
    of the indexed roster play no part). *)
Definition listed_before (e : election) (p q : nat * candidate) : Prop :=
  vote_count (votes e) (c_id q.2) < vote_count (votes e) (c_id p.2)
  ∨ (vote_count (votes e) (c_id p.2) = vote_count (votes e) (c_id q.2)
     ∧ default 0 (candidateIndex e !! c_id p.2) ≤ default 0 (candidateIndex e !! c_id q.2)).

(** The same order on the records. *)
Definition reported_before (e : election) (a b : result) : Prop :=
  result_count b < result_count a
  ∨ (result_count a = result_count b
     ∧ default 0 (candidateIndex e !! r_id a) ≤ default 0 (candidateIndex e !! r_id b)).

(** The ids of the roster, each once. *)
Definition roster_ids (roster : list candidate) : list string :=
  remove_dups (c_id <$> roster).


(** The tally accounts for the votes: it has no entry for an id that is not
    in the roster, and over any list that holds every id of the roster once
    its counts add up to the number of voters who have voted. *)
Definition accounted (roster : list candidate) (e : election) : Prop :=
  (∀ k, ¬ known_candidate roster k → get_prop (votes e) k = VUndefined) ∧
  (∀ ids, NoDup ids → (∀ k, known_candidate roster k → k ∈ ids) →
     sum_list (vote_count (votes e) <$> ids) = Z.of_nat (size (votedVoters e))).


(** ** The pattern module: recursion

    Each recursive function is given with the number of calls it can make
    as its structural argument; the lemma named after it with [_unfold]
    shows that it satisfies the equation that is the body of the source
    function. A string is a sequence of ASCII characters, and an array is a
    list. *)

Definition num_leb (a b : number) : bool :=
  match a, b with
  | NaN, _ | _, NaN => false
  | Fin x, Fin y => x <=? y
  | NegInf, _ => true
  | _, PosInf => true
  | _, _ => false
  end.

(** [a <= b] on values. *)
Definition js_le (a b : value) : bool := num_leb (to_number a) (to_number b).

(** The characters of a value that is a string. *)
Definition string_of (v : value) : string :=
  match v with
  | VStr s => s
  | _ => ""
  end.

(** The calls [repeatChar(char, n)] makes after the first. *)
Definition calls_left (n : value) : nat :=
  match n with
  | VNum (Fin z) => Z.to_nat z
  | _ => 0%nat
  end.

Fixpoint repeatChar_calls (calls : nat) (char n : value) : string :=
  match calls with
  | O => ""
  | S calls' =>
      if negb (typeof char =? "string")%string || (js_length char =? 0) then ""
      else if negb (Number_isFinite n) || js_le n (VNum (Fin 0)) then ""
      else string_of char +:+ repeatChar_calls calls' char (VNum (js_sub n (VNum (Fin 1))))
  end.

Definition repeatChar (char n : value) : string :=
  repeatChar_calls (S (calls_left n)) char n.

(** An element of an array, or the argument of a function that expects an
    array: a value that is not an array, or an array of such elements. *)
#[warnings="-register-all"]
Inductive nested :=
  | Leaf (v : value)
  | Arr (elems : list nested).

(** [helper(index)] runs over the elements from [index] on. *)
Fixpoint sumNestedArray (arr : nested) : number :=
  match arr with
  | Leaf _ => Fin 0
  | Arr elems =>
      (fix helper (rest : list nested) : number :=
         match rest with
         | [] => Fin 0
         | value :: rest' =>
             let current :=
               match value with
               | Arr _ => sumNestedArray value
               | Leaf v => if Number_isFinite v then to_number v else Fin 0
               end in
             num_add current (helper rest')
         end) elems
  end.

Fixpoint flattenArray (arr : nested) : list value :=
  match arr with
  | Leaf _ => []
  | Arr elems =>
      (fix helper (rest : list nested) : list value :=
         match rest with
         | [] => []
         | value :: rest' =>
             let current :=
               match value with
               | Arr _ => flattenArray value
               | Leaf v => [v]
               end in
             (current ++ helper rest')%list
         end) elems
  end.

(** [Number.isInteger]: the finite numbers of the model are the integers. *)
Definition Number_isInteger (v : value) : bool := Number_isFinite v.

Fixpoint buildAscending_calls (calls : nat) (k : Z) : list string :=
  match calls with
  | O => []
  | S calls' =>
      if k =? 1 then ["*"]
      else (buildAscending_calls calls' (k - 1)
              ++ [repeatChar (VStr "*") (VNum (Fin k))])%list
  end.

(** [buildAscending(k)] for the positive integer [k]. *)
Definition buildAscending (k : Z) : list string :=
  buildAscending_calls (Z.to_nat k) k.

(** [asc.slice(0, -1)]. *)
Definition slice_but_last {A} (l : list A) : list A := take (length l - 1) l.

Definition generatePattern (n : value) : list string :=
  if negb (Number_isInteger n) || js_le n (VNum (Fin 0)) then []
  else
    let asc := buildAscending (match to_number n with Fin z => z | _ => 0 end) in
    let desc := reverse (slice_but_last asc) in
    (asc ++ desc)%list.

(** The string of [k] copies of [s] (specification side). *)
Fixpoint copies (k : nat) (s : string) : string :=
  match k with
  | O => ""
  | S k' => s +:+ copies k' s
  end.

(** The sum of the finite numbers among [vs] (specification side). *)
Definition sum_finite (vs : list value) : Z :=
  sum_list ((λ v, match v with VNum (Fin z) => z | _ => 0 end) <$> vs).


(** [toLowerCase] on ASCII characters: the capital letters become small. *)
Definition lower_char (a : Ascii.ascii) : Ascii.ascii :=
  let n := Ascii.N_of_ascii a in
  if ((65 <=? n) && (n <=? 90))%N then Ascii.ascii_of_N (n + 32) else a.

Fixpoint toLowerCase (s : string) : string :=
  match s with
  | EmptyString => EmptyString
  | String a s' => String (lower_char a) (toLowerCase s')
  end.

(** [a !== b] for two results of indexing a string. *)
Definition char_differs (a b : option Ascii.ascii) : bool :=
  negb (bool_decide (a = b)).

Fixpoint isPalindrome_calls (calls : nat) (str : value) : bool :=
  match calls with
  | O => true
  | S calls' =>
      if negb (typeof str =? "string")%string then false
      else
        let s := toLowerCase (string_of str) in
        if (String.length s <=? 1)%nat then true
        else if char_differs (String.get 0 s) (String.get (String.length s - 1) s)
        then false
        else isPalindrome_calls calls'
               (VStr (String.substring 1 (String.length s - 2) s))
  end.

Definition isPalindrome (str : value) : bool :=
  isPalindrome_calls (S (String.length (string_of str))) str.

(** The characters of a string (specification side). *)
Definition chars (s : string) : list Ascii.ascii := String.list_ascii_of_string s.


(** ** The blender module: composition

    An argument of [pipe] or [compose] is [Some f] for a function and [None]
    for any value whose [typeof] is not ['function']. *)

(** [fns.filter((fn) => typeof fn === 'function')]. *)
Definition only_functions {A} (fns : list (option (A → A))) : list (A → A) :=
  omap id fns.

Definition pipe {A} (fns : list (option (A → A))) : A → A :=
  let onlyFns := only_functions fns in
  if (length onlyFns =? 0)%nat then λ x, x
  else λ input, foldl (λ acc fn, fn acc) input onlyFns.

(** [reduceRight] starts from the last function. *)
Definition compose {A} (fns : list (option (A → A))) : A → A :=
  let onlyFns := only_functions fns in
  if (length onlyFns =? 0)%nat then λ x, x
  else λ input, foldr (λ fn acc, fn acc) input onlyFns.

(** [spice && typeof spice === 'object' ? spice : {}], as the properties
    that the spread copies. *)
Definition spread_or_empty (spice : value) : gmap string value :=
  if truthy spice && (typeof spice =? "object")%string
  then match spice with VObject o => o | _ => ∅ end
  else ∅.

Definition grind (spice : value) : value :=
  VObject (<["form" := VStr "powder"]> (spread_or_empty spice)).

Definition roast (spice : value) : value :=
  VObject (<["aroma" := VStr "strong"]> (<["roasted" := VBool true]> (spread_or_empty spice))).

Definition mix (spice : value) : value :=
  VObject (<["mixed" := VBool true]> (spread_or_empty spice)).


(** ** The tiffin module: plans

    A plan is an object; the argument of [createTiffinPlan] is [Some o] for
    an object with the own properties [o] and [None] when the function is
    called without an argument (or with [undefined]). A call with [null],
    which the destructuring of the parameter rejects, is not represented. *)

Definition num_mul (a b : number) : number :=
  match a, b with
  | NaN, _ | _, NaN => NaN
  | Fin x, Fin y => Fin (x * y)
  | Fin x, PosInf | PosInf, Fin x =>
      if x =? 0 then NaN else if 0 <? x then PosInf else NegInf
  | Fin x, NegInf | NegInf, Fin x =>
      if x =? 0 then NaN else if 0 <? x then NegInf else PosInf
  | PosInf, PosInf | NegInf, NegInf => PosInf
  | PosInf, NegInf | NegInf, PosInf => NegInf
  end.

(** [a * b] on values. *)
Definition js_mul (a b : value) : number := num_mul (to_number a) (to_number b).

(** A destructured property with a default: the default stands in for
    [undefined]. *)
Definition with_default (v dflt : value) : value :=
  match v with
  | VUndefined => dflt
  | _ => v
  end.

Definition rates : gmap string value :=
  <["jain" := VNum (Fin 90)]> (<["nonveg" := VNum (Fin 120)]> {["veg" := VNum (Fin 80)]}).

(** [Object.prototype.hasOwnProperty.call(o, key)] for the object [o] of
    the three rates. The code looks under the string that the key converts
    to: a string is itself, and the string of undefined, null, a boolean or
    a number is none of the three keys. An object or a function is
    converted by its own methods, which the model does not represent: the
    properties below are for keys that are neither. *)
Definition hasOwnProperty (o : gmap string value) (key : value) : bool :=
  match key with
  | VStr k => bool_decide (is_Some (o !! k))
  | _ => false
  end.

Definition createTiffinPlan (arg : option (gmap string value)) : value :=
  let o := default ∅ arg in
  let name := get_prop (VObject o) "name" in
  let mealType := with_default (get_prop (VObject o) "mealType") (VStr "veg") in
  let days := with_default (get_prop (VObject o) "days") (VNum (Fin 30)) in
  if negb (typeof name =? "string")%string || (js_length name =? 0) then VNull
  else if negb (hasOwnProperty rates mealType) then VNull
  else if negb (Number_isFinite days) || js_le days (VNum (Fin 0)) then VNull
  else
    let dailyRate := member (VObject rates) (string_of mealType) in
    let totalCost := VNum (js_mul dailyRate days) in
    VObject (<["totalCost" := totalCost]>
             (<["dailyRate" := dailyRate]>
              (<["days" := days]>
               (<["mealType" := mealType]> {["name" := name]})))).

(** One turn of the loop of [combinePlans] on [(mealBreakdown,
    totalRevenue)]. The left operand of [+ 1] is a count or 0 for a meal
    type that names no member inherited from [Object.prototype], as are
    the meal types of the plans that [createTiffinPlan] returns. *)
Definition combine_plan (acc : gmap string value * number) (plan : value)
    : gmap string value * number :=
  let '(mealBreakdown, totalRevenue) := acc in
  let mealType :=
    if truthy plan && (typeof (get_prop plan "mealType") =? "string")%string
    then string_of (get_prop plan "mealType") else "unknown" in
  let mealBreakdown' :=
    <[mealType := VNum (num_add
                          (to_number (nullish (member (VObject mealBreakdown) mealType)
                                              (VNum (Fin 0))))
                          (Fin 1))]> mealBreakdown in
  let totalRevenue' :=
    if truthy plan && Number_isFinite (get_prop plan "totalCost")
    then num_add totalRevenue (to_number (get_prop plan "totalCost"))
    else totalRevenue in
  (mealBreakdown', totalRevenue').

Definition combinePlans (plans : list value) : value :=
  if (length plans =? 0)%nat then VNull
  else
    let '(mealBreakdown, totalRevenue) := foldl combine_plan (∅, Fin 0) plans in
    VObject (<["mealBreakdown" := VObject mealBreakdown]>
             (<["totalRevenue" := VNum totalRevenue]>
              {["totalCustomers" := VNum (Fin (Z.of_nat (length plans)))]})).

(** One turn of the [reduce] of [applyAddons] on [(addonNames, sum)]. *)
Definition add_addon (acc : list string * number) (addon : value) : list string * number :=
  let '(addonNames, sum) := acc in
  if negb (truthy addon) || negb (typeof addon =? "object")%string then (addonNames, sum)
  else
    let addonNames' :=
      if (typeof (get_prop addon "name") =? "string")%string
      then (addonNames ++ [string_of (get_prop addon "name")])%list
      else addonNames in
    if negb (Number_isFinite (get_prop addon "price")) then (addonNames', sum)
    else (addonNames', num_add sum (to_number (get_prop addon "price"))).

(** The result [{ ...plan, dailyRate, totalCost, addonNames }] is given as
    its properties other than [addonNames] and the array [addonNames];
    [None] is [null]. *)
Definition applyAddons (plan : value) (addons : list value)
    : option (gmap string value * list string) :=
  if negb (truthy plan) || negb (typeof plan =? "object")%string then None
  else
    let '(addonNames, totalAddonPerDay) := foldl add_addon ([], Fin 0) addons in
    let dailyRate :=
      num_add (if Number_isFinite (get_prop plan "dailyRate")
               then to_number (get_prop plan "dailyRate") else Fin 0)
              totalAddonPerDay in
    let days :=
      if Number_isFinite (get_prop plan "days")
      then to_number (get_prop plan "days") else Fin 0 in
    let totalCost := num_mul dailyRate days in
    Some (<["totalCost" := VNum totalCost]>
          (<["dailyRate" := VNum dailyRate]>
           (delete "addonNames" (spread_or_empty plan))),
          addonNames).

(** Reading a plan (specification side): its finite [totalCost], [days]
    and [dailyRate] (0 otherwise), and the label [combinePlans] counts it
    under. *)
Definition finite_prop (plan : value) (k : string) : Z :=
  match get_prop plan k with
  | VNum (Fin z) => z
  | _ => 0
  end.

Definition plan_label (plan : value) : string :=
  match get_prop plan "mealType" with
  | VStr s => if truthy plan then s else "unknown"
  | _ => "unknown"
  end.

(** The daily rate of a meal type. *)
Definition rate_of (mealType : string) : option Z :=
  if (mealType =? "veg")%string then Some 80
  else if (mealType =? "nonveg")%string then Some 120
  else if (mealType =? "jain")%string then Some 90
  else None.

(** The finite price of an addon that is an object (0 otherwise). *)
Definition addon_price (addon : value) : Z :=
  match addon with
  | VObject o => match o !! "price" with Some (VNum (Fin z)) => z | _ => 0 end
  | _ => 0
  end.

(** ** The rating module: mappers and operations *)

(** [obj?.[field]]: [obj] is [Some o] for an object with the own properties
    [o] and [None] for [null] or [undefined]. *)
Definition optional_member (obj : option (gmap string value)) (field : string) : value :=
  match obj with
  | Some o => member (VObject o) field
  | None => VUndefined
  end.

Definition createMapper (fields : list string) (obj : option (gmap string value))
    : gmap string value :=
  foldl (λ out field, <[field := optional_member obj field]> out) ∅ fields.

(** [data] is [None] when it is not an array; an operation is [Some op] for
    a function from arrays to arrays and [None] for a value that is not a
    function. *)
Definition applyOperations {A} (data : option (list A))
    (operations : list (option (list A → list A))) : list A :=
  match data with
  | None => []
  | Some data =>
      if (length operations =? 0)%nat then data
      else foldl (λ acc op, match op with Some f => f acc | None => acc end)
                 data operations
  end.


(** The plan object with these properties (specification side). *)
Definition tiffin_plan (name mealType : string) (days rate : Z) : value :=
  VObject (<["totalCost" := VNum (Fin (rate * days))]>
           (<["dailyRate" := VNum (Fin rate)]>
            (<["days" := VNum (Fin days)]>
             (<["mealType" := VStr mealType]> {["name" := VStr name]})))).

(** How many of the plans [combinePlans] counts under the label [k]. *)
Definition labelled (k : string) (plans : list value) : nat :=
  length (filter (λ plan, plan_label plan = k) plans).


(** The name an addon contributes to [addonNames], if any. *)
Definition addon_name (addon : value) : option string :=
  match addon with
  | VObject o => match o !! "name" with Some (VStr s) => Some s | _ => None end
  | _ => None
  end.



(** ** Numbers of the language (specification side)

    The finite numbers of the language are the doubles. An integer is one
    of them when it is [m * 2 ^ e] for a significand [m] of at most 53 bits
    and an exponent [e] up to 971. The code adds and multiplies doubles:
    its result is the exact one when that is a double, and the nearest
    double (or an infinity) otherwise. The integers up to [2 ^ 53] in
    absolute value are all doubles, so sums and products that stay among
    them are exact, and are the ones that the definitions above compute. *)
Definition is_double (z : Z) : Prop :=
  ∃ m e, z = m * 2 ^ e ∧ Z.abs m < 2 ^ 53 ∧ 0 ≤ e ≤ 971.

Definition safe (z : Z) : Prop := Z.abs z ≤ 2 ^ 53.

(** The absolute values of the numbers of [l] add up to at most [2 ^ 53]:
    every sum of some of them, in whatever order it is taken, is safe. *)
Definition safe_sum (l : list Z) : Prop := sum_list (Z.abs <$> l) ≤ 2 ^ 53.

(** The finite number a value is, 0 for any other value. *)
Definition finite_of (v : value) : Z :=
  match v with
  | VNum (Fin z) => z
  | _ => 0
  end.

(** A value that is neither an object nor a function. *)
Definition primitive (v : value) : Prop :=
  match v with
  | VObject _ | VFunction => False
  | _ => True
  end.


(** An argument of [createTiffinPlan] for which the model gives what the
    code computes: the meal type is no object or function, and the days, if
    a number, leave the total cost a safe integer. *)
Definition plain_order (arg : option (gmap string value)) : Prop :=
  let o := default ∅ arg in
  primitive (with_default (get_prop (VObject o) "mealType") (VStr "veg")) ∧
  safe (120 * finite_of (with_default (get_prop (VObject o) "days") (VNum (Fin 30)))).

(** The largest absolute value that a sum or a product of [applyAddons]
    can reach for [plan] and [addons]. *)
Definition addons_bound (plan : value) (addons : list value) : Z :=
  (Z.abs (finite_prop plan "dailyRate") + sum_list (Z.abs ∘ addon_price <$> addons))
  * Z.max 1 (Z.abs (finite_prop plan "days")).


(** The store and the closure once Mohan has registered and voted for
    "C1": [castVote] has left the first tally object where it was and made
    [votes] refer to a new one. *)
Definition voted_store : Store.store :=
  <[5%positive := Store.OTally {["C1" := VNum (Fin 1)]}]> sample_store.

Definition voted_closure : Store.closure :=
  {| Store.candidateList := 3%positive;
     Store.candidateById := list_to_map [("C1", 1%positive); ("C2", 2%positive)];
     Store.candidateIndex := list_to_map [("C1", 0); ("C2", 1)];
     Store.votes := 5%positive;
     Store.registeredVoters := {["V1"]};
     Store.votedVoters := {["V1"]} |}.

(** A roster whose one candidate has the id "__proto__". *)
Definition proto_id_roster : list candidate :=
  [ {| c_id := "__proto__"; c_name := "Esha"; c_party := "Lok" |} ].

(** * Properties *)

(** ** Values *)

Lemma typeof_object_truthy v :
  negb (truthy v) || negb (typeof v =? "object")%string = false ↔ ∃ o, v = VObject o.
Proof.
  split.
  - destruct v as [| |b|n|s|o|]; simpl; try discriminate; eauto.
    all: rewrite orb_false_r || rewrite orb_true_r; discriminate.
  - intros [o ->]. reflexivity.
Qed.

Lemma nonempty_string_prop v :
  negb (typeof v =? "string")%string || (js_length v =? 0) = false
  ↔ ∃ s, v = VStr s ∧ s ≠ "".
Proof.
  split.
  - destruct v as [| |b|n|s|o|]; simpl; try discriminate.
    destruct s; simpl; [discriminate|]. intros _. eexists. split; [done|discriminate].
  - intros (s & -> & Hs). destruct s; [done|]. reflexivity.
Qed.

Lemma Number_isFinite_spec v : Number_isFinite v = true ↔ ∃ z, v = VNum (Fin z).
Proof.
  split.
  - destruct v as [| |b|[z| | |]|s|o|]; simpl; try discriminate; eauto.
  - intros [z ->]. reflexivity.
Qed.

Lemma get_prop_object o k : get_prop (VObject o) k = default VUndefined (o !! k).
Proof. reflexivity. Qed.

Lemma member_object o k : member (VObject o) k = default (inherited k) (o !! k).
Proof. unfold member. by destruct (o !! k). Qed.

Lemma member_own o k v : o !! k = Some v → member (VObject o) k = v.
Proof. intros Hk. by rewrite member_object, Hk. Qed.

Lemma inherited_member k :
  k ∈ Object_prototype_members → inherited k = VFunction ∨ inherited k = VObject ∅.
Proof.
  intros Hk. unfold inherited. destruct (k =? "__proto__")%string; [by right|].
  rewrite bool_decide_eq_true_2 by done. by left.
Qed.

Lemma inherited_plain k : k ∉ Object_prototype_members → inherited k = VUndefined.
Proof.
  intros Hk. unfold inherited. destruct (String.eqb_spec k "__proto__") as [->|_].
  - destruct Hk. apply (bool_decide_unpack _). by vm_compute.
  - by rewrite bool_decide_eq_false_2.
Qed.

Lemma inherited_not_finite k : Number_isFinite (inherited k) = false.
Proof.
  destruct (decide (k ∈ Object_prototype_members)) as [Hk|Hk].
  - by destruct (inherited_member k Hk) as [-> | ->].
  - by rewrite inherited_plain.
Qed.

(** A key that names no inherited member reads the own property. *)
Lemma member_plain v k : k ∉ Object_prototype_members → member v k = get_prop v k.
Proof.
  intros Hk. destruct v as [| |b|n|s|o|]; try done.
  by rewrite member_object, get_prop_object, inherited_plain.
Qed.

(** A finite number is read from an own property only. *)
Lemma member_finite v k :
  (if Number_isFinite (member v k) then to_number (member v k) else Fin 0)
  = (if Number_isFinite (get_prop v k) then to_number (get_prop v k) else Fin 0).
Proof.
  destruct v as [| |b|n|s|o|]; try done.
  rewrite member_object, get_prop_object. destruct (o !! k); [done|]. simpl.
  by rewrite inherited_not_finite.
Qed.

(** ** tallyPure *)

Lemma vote_count_tally_object t c : vote_count (tally_object t) c = default 0 (t !! c).
Proof.
  unfold vote_count, tally_object, get_prop. rewrite lookup_fmap.
  by destruct (t !! c).
Qed.

(** On an object the result is the object with one entry replaced. *)
Lemma tallyPure_object o c :
  tallyPure (VObject o) c = VObject (<[c := VNum (Fin (vote_count (VObject o) c + 1))]> o).
Proof.
  unfold tallyPure, vote_count. cbn [truthy typeof andb]. cbv iota.
  change (("object" =? "object")%string) with true. cbv iota.
  rewrite member_finite, get_prop_object.
  destruct (o !! c) as [[| |b|[z| | |]|s|o'|]|]; reflexivity.
Qed.

(** On anything else the result is the one-entry object. *)
Lemma tallyPure_not_object v c :
  (∀ o, v ≠ VObject o) → tallyPure v c = VObject {[c := VNum (Fin 1)]}.
Proof.
  intros Hv.
  assert (tallyPure v c = tallyPure (VObject ∅) c) as ->.
  { unfold tallyPure. destruct v as [| |b|n|s|o|]; try reflexivity.
    - by rewrite andb_false_r.
    - by rewrite andb_false_r.
    - by rewrite andb_false_r.
    - by destruct (Hv o). }
  rewrite tallyPure_object. unfold vote_count. rewrite get_prop_object, lookup_empty.
  simpl. by rewrite insert_empty.
Qed.

Lemma numeric_tally_empty : numeric_tally (VObject ∅).
Proof. exists ∅. split; [done|]. intros k v Hk. by rewrite lookup_empty in Hk. Qed.

Lemma vote_count_nonneg tally c : numeric_tally tally → 0 ≤ vote_count tally c.
Proof.
  intros (o & -> & Ho). unfold vote_count, get_prop.
  destruct (o !! c) as [v|] eqn:Hc; simpl; [|lia].
  destruct (Ho _ _ Hc) as (z & -> & Hz). lia.
Qed.

(** A tally stays numeric under [tallyPure]. *)
Lemma tally_is_numeric tally c : numeric_tally tally → numeric_tally (tallyPure tally c).
Proof.
  intros Hn. pose proof (vote_count_nonneg _ c Hn) as Hc.
  destruct Hn as (o & -> & Ho). rewrite tallyPure_object.
  eexists. split; [done|]. intros k v.
  rewrite lookup_insert. case_decide.
  - intros [= <-]. eexists. split; [done|lia].
  - apply Ho.
Qed.

Lemma vote_count_tallyPure tally c k :
  numeric_tally tally →
  vote_count (tallyPure tally c) k
  = if decide (c = k) then vote_count tally k + 1 else vote_count tally k.
Proof.
  intros (o & -> & Ho). rewrite tallyPure_object.
  unfold vote_count at 1. rewrite get_prop_object, lookup_insert.
  case_decide; [by subst|]. reflexivity.
Qed.

(** ** createVoteValidator *)

Lemma missing_undefined_or_null v :
  strict_eq v VUndefined || strict_eq v VNull = true ↔ v = VUndefined ∨ v = VNull.
Proof.
  destruct v as [| |b|[z| | |]|s|o|]; simpl; split; try discriminate; auto;
    intros [?|?]; discriminate.
Qed.

Lemma missing_empty_string v :
  (typeof v =? "string")%string && (js_length v =? 0) = true ↔ v = VStr "".
Proof.
  split.
  - destruct v as [| |b|n|s|o|]; simpl; try discriminate.
    destruct s; [done|discriminate].
  - intros ->. reflexivity.
Qed.

Lemma check_fields_head voter field rest :
  check_fields voter (field :: rest) =
    if decide (missing (member voter field))
    then Some {| valid := false; reason := Some ("missing field: " +:+ field) |}
    else check_fields voter rest.
Proof.
  cbn [check_fields]. unfold missing.
  destruct (strict_eq _ VUndefined || strict_eq _ VNull) eqn:E1.
  { apply missing_undefined_or_null in E1.
    destruct (decide _) as [|n]; [done|]. destruct n. tauto. }
  destruct (_ && _) eqn:E2.
  { apply missing_empty_string in E2.
    destruct (decide _) as [|n]; [done|]. destruct n. tauto. }
  destruct (decide _) as [[H|[H|H]]|]; [| | |done].
  - assert (strict_eq (member voter field) VUndefined
            || strict_eq (member voter field) VNull = true) as E
      by (apply missing_undefined_or_null; auto). congruence.
  - assert (strict_eq (member voter field) VUndefined
            || strict_eq (member voter field) VNull = true) as E
      by (apply missing_undefined_or_null; auto). congruence.
  - apply missing_empty_string in H. congruence.
Qed.

Lemma check_fields_first_missing voter pre f post :
  Forall (λ g, ¬ missing (member voter g)) pre →
  missing (member voter f) →
  check_fields voter (pre ++ f :: post)
  = Some {| valid := false; reason := Some ("missing field: " +:+ f) |}.
Proof.
  intros Hpre Hf. induction Hpre as [|g pre Hg _ IH].
  - simpl app. rewrite check_fields_head. by rewrite decide_True.
  - rewrite <- app_comm_cons.
    rewrite check_fields_head. by rewrite decide_False.
Qed.

Lemma check_fields_all_present voter fields :
  Forall (λ g, ¬ missing (member voter g)) fields →
  check_fields voter fields = None.
Proof.
  induction 1 as [|g fields Hg _ IH]; [done|].
  rewrite check_fields_head. by rewrite decide_False.
Qed.

(** The two defaults of the factory, read off the rules. *)
Lemma createVoteValidator_defaults rules o :
  createVoteValidator rules (VObject o) =
    match check_fields (VObject o) (fields_of rules) with
    | Some r => r
    | None =>
        if negb (Number_isFinite (get_prop (VObject o) "age"))
           || js_lt (get_prop (VObject o) "age") (VNum (Fin (min_age_of rules)))
        then {| valid := false; reason := Some "underage" |}
        else {| valid := true; reason := None |}
    end.
Proof.
  unfold createVoteValidator. simpl negb. simpl orb. cbv iota.
  assert (fields_of rules
          = match rules with Some r => default [] (requiredFields r) | None => [] end) as <-.
  { by destruct rules as [[m [fs|]]|]. }
  assert (VNum (Fin (min_age_of rules))
          = match rules with
            | Some r => if Number_isFinite (minAge r) then minAge r else VNum (Fin 18)
            | None => VNum (Fin 18)
            end) as <-; [|done].
  by destruct rules as [[[| |b|[z| | |]|s|o'|] fs]|].
Qed.

Lemma age_test o m :
  negb (Number_isFinite (get_prop (VObject o) "age"))
  || js_lt (get_prop (VObject o) "age") (VNum (Fin m)) = false
  ↔ finite_age_at_least o m.
Proof.
  unfold finite_age_at_least. rewrite get_prop_object. split.
  - destruct (o !! "age") as [[| |b|[z| | |]|s|o'|]|]; simpl; try discriminate.
    unfold js_lt. simpl. intros H%Z.ltb_ge. eauto.
  - intros (a & -> & Ha). simpl. unfold js_lt. simpl. by apply Z.ltb_ge.
Qed.

(** C8 (as amended): the predicate made by [createVoteValidator] answers
    "invalid voter" for a voter that is not an object; otherwise "missing
    field: f" for the first required field f, in order, whose value is
    undefined, null or the empty string (and 0 and false are not missing);
    otherwise "underage" unless the age is a finite number of at least the
    minimum age in force (default 18); otherwise it answers valid. *)
Theorem validator_first_failing_reason rules voter :
  ((∀ o, voter ≠ VObject o) →
     createVoteValidator rules voter
     = {| valid := false; reason := Some "invalid voter" |}) ∧
  (∀ o, voter = VObject o →
     (∀ pre f post,
        fields_of rules = (pre ++ f :: post)%list →
        Forall (λ g, ¬ missing (member voter g)) pre →
        missing (member voter f) →
        createVoteValidator rules voter
        = {| valid := false; reason := Some ("missing field: " +:+ f) |}) ∧
     (Forall (λ g, ¬ missing (member voter g)) (fields_of rules) →
        (finite_age_at_least o (min_age_of rules) →
           createVoteValidator rules voter = {| valid := true; reason := None |}) ∧
        (¬ finite_age_at_least o (min_age_of rules) →
           createVoteValidator rules voter
           = {| valid := false; reason := Some "underage" |}))) ∧
  ¬ missing (VNum (Fin 0)) ∧ ¬ missing (VBool false).
Proof.
  split; [|split].
  - intros Hv. unfold createVoteValidator.
    destruct (negb (truthy voter) || negb (typeof voter =? "object")%string) eqn:E; [done|].
    apply typeof_object_truthy in E as [o ->]. by destruct (Hv o).
  - intros o ->. split.
    + intros pre f post Hfs Hpre Hf.
      rewrite createVoteValidator_defaults, Hfs.
      by rewrite (check_fields_first_missing _ _ _ _ Hpre Hf).
    + intros Hall. rewrite createVoteValidator_defaults.
      rewrite (check_fields_all_present _ _ Hall).
      split; intros Hage.
      * apply age_test in Hage. by rewrite Hage.
      * destruct (negb _ || js_lt _ _) eqn:E; [done|].
        apply age_test in E. by destruct Hage.
  - split; intros [?|[?|?]]; discriminate.
Qed.

(** The validator of the default rules accepts a voter of age 30 with no
    required fields. *)
Lemma validator_first_failing_reason_witness :
  createVoteValidator None (VObject {["age" := VNum (Fin 30)]})
  = {| valid := true; reason := None |}.
Proof.
  refine (proj1 (proj2 (proj1 (proj2
    (validator_first_failing_reason None (VObject {["age" := VNum (Fin 30)]})))
    {["age" := VNum (Fin 30)]} eq_refl) _) _).
  - constructor.
  - exists 30. split; [reflexivity|]. simpl. lia.
Defined.

(** C8 (as stated) fails: an age of [Infinity] is at least 18, and no field
    is required, yet the answer is "underage". *)
Lemma validator_infinite_age_counterexample :
  let voter := VObject {["age" := VNum PosInf]} in
  fields_of None = [] ∧
  num_ltb (to_number (get_prop voter "age")) (Fin (min_age_of None)) = false ∧
  num_ltb (Fin (min_age_of None)) (to_number (get_prop voter "age")) = true ∧
  createVoteValidator None voter = {| valid := false; reason := Some "underage" |} ∧
  createVoteValidator None voter ≠ {| valid := true; reason := None |}.
Proof. repeat split; discriminate. Qed.

(** ** Maps built from pairs *)

Lemma new_Map_snoc {V} (l : list (string * V)) kv :
  new_Map (l ++ [kv]) = <[kv.1 := kv.2]> (new_Map l).
Proof. unfold new_Map. by rewrite foldl_snoc. Qed.

Lemma new_Map_list_to_map {V} (l : list (string * V)) :
  new_Map l = list_to_map (reverse l).
Proof.
  induction l as [|kv l IH] using rev_ind; [done|].
  rewrite new_Map_snoc, reverse_snoc, IH. by destruct kv.
Qed.

Lemma new_Map_is_Some {V} (l : list (string * V)) k :
  is_Some (new_Map l !! k) ↔ k ∈ l.*1.
Proof.
  rewrite new_Map_list_to_map, <- not_eq_None_Some.
  rewrite <- (not_elem_of_list_to_map (M := gmap string)).
  rewrite fmap_reverse, elem_of_reverse.
  split; [apply dec_stable|auto].
Qed.

Lemma new_Map_lookup {V} (l : list (string * V)) k v :
  NoDup (l.*1) → new_Map l !! k = Some v ↔ (k, v) ∈ l.
Proof.
  intros Hnd. rewrite new_Map_list_to_map.
  rewrite <- elem_of_list_to_map, elem_of_reverse; [done|].
  by rewrite fmap_reverse, reverse_Permutation.
Qed.

(** [new Map(pairs)] holds for a key the value of the last pair with it. *)
Lemma new_Map_last {V} (l : list (string * V)) k v :
  new_Map l !! k = Some v
  ↔ ∃ i, l !! i = Some (k, v) ∧ ∀ j v', l !! j = Some (k, v') → (j ≤ i)%nat.
Proof.
  revert v. induction l as [|[k0 v0] l IH] using rev_ind; intros v.
  { split; [done|]. by intros (i & Hi & _). }
  rewrite new_Map_snoc. simpl. destruct (decide (k0 = k)) as [->|Hne].
  - rewrite lookup_insert_eq. split.
    + intros [= ->]. exists (length l). split.
      * by rewrite lookup_app_r, Nat.sub_diag by lia.
      * intros j v' Hj. apply lookup_lt_Some in Hj. rewrite length_app in Hj. simpl in Hj. lia.
    + intros (i & Hi & Hlast).
      assert (i = length l) as ->.
      { pose proof (Hlast (length l) v0) as Hl.
        rewrite lookup_app_r, Nat.sub_diag in Hl by lia.
        specialize (Hl eq_refl).
        apply lookup_lt_Some in Hi. rewrite length_app in Hi. simpl in Hi. lia. }
      rewrite lookup_app_r, Nat.sub_diag in Hi by lia. by injection Hi as ->.
  - rewrite lookup_insert_ne by done. rewrite IH. split.
    + intros (i & Hi & Hlast). exists i. split.
      * by apply lookup_app_l_Some.
      * intros j v' Hj. apply lookup_app_Some in Hj as [Hj|[_ Hj]]; [by eapply Hlast|].
        destruct (j - length l)%nat; [|done]. simpl in Hj. congruence.
    + intros (i & Hi & Hlast).
      apply lookup_app_Some in Hi as [Hi|[_ Hi]].
      * exists i. split; [done|]. intros j v' Hj. eapply Hlast. by apply lookup_app_l_Some.
      * destruct (i - length l)%nat; [|done]. simpl in Hi. congruence.
Qed.

(** ** The two mutating methods, case by case *)

Lemma isValidVoter_spec voter :
  isValidVoter voter = true ↔ ∃ vid, well_formed_voter voter vid.
Proof.
  unfold isValidVoter, well_formed_voter. split.
  - destruct (negb (truthy voter) || _) eqn:E1; [done|].
    apply typeof_object_truthy in E1 as [o ->].
    destruct (negb (typeof (get_prop (VObject o) "id") =? _)%string || _) eqn:E2; [done|].
    apply nonempty_string_prop in E2 as (vid & E2 & Hvid).
    destruct (negb (typeof (get_prop (VObject o) "name") =? _)%string || _) eqn:E3; [done|].
    apply nonempty_string_prop in E3 as (name & E3 & Hname).
    destruct (negb (Number_isFinite _) || _) eqn:E4; [done|].
    apply age_test in E4. intros _. exists vid, o, name.
    rewrite get_prop_object in E2, E3.
    destruct (o !! "id") as [?|]; [|done].
    destruct (o !! "name") as [?|]; [|done].
    simpl in *. subst. done.
  - intros (vid & o & name & -> & Hid & Hvid & Hn & Hname & Hage).
    rewrite (proj2 (typeof_object_truthy (VObject o))) by eauto.
    rewrite (proj2 (nonempty_string_prop (get_prop (VObject o) "id")))
      by (rewrite get_prop_object, Hid; eauto).
    rewrite (proj2 (nonempty_string_prop (get_prop (VObject o) "name")))
      by (rewrite get_prop_object, Hn; eauto).
    by rewrite (proj2 (age_test o 18) Hage).
Qed.

Lemma well_formed_voter_id voter vid : well_formed_voter voter vid → id_of voter = vid.
Proof.
  intros (o & name & -> & Hid & _). unfold id_of. by rewrite get_prop_object, Hid.
Qed.

Lemma registerVoter_accept voter vid e :
  well_formed_voter voter vid → vid ∉ registeredVoters e →
  registerVoter voter e = (with_registered vid e, true).
Proof.
  intros Hwf Hnew. unfold registerVoter.
  rewrite (proj2 (isValidVoter_spec voter)) by eauto. simpl.
  rewrite (well_formed_voter_id _ _ Hwf). by rewrite bool_decide_eq_false_2.
Qed.

Lemma registerVoter_reject voter e :
  (∀ vid, well_formed_voter voter vid → vid ∈ registeredVoters e) →
  registerVoter voter e = (e, false).
Proof.
  intros Hrej. unfold registerVoter.
  destruct (isValidVoter voter) eqn:E; [|done]. simpl.
  apply isValidVoter_spec in E as [vid Hwf].
  rewrite (well_formed_voter_id _ _ Hwf). by rewrite bool_decide_eq_true_2 by auto.
Qed.

Lemma registerVoter_cases voter e :
  (∃ vid, well_formed_voter voter vid ∧ (vid ∉ registeredVoters e)
          ∧ registerVoter voter e = (with_registered vid e, true))
  ∨ registerVoter voter e = (e, false).
Proof.
  destruct (isValidVoter voter) eqn:E.
  - apply isValidVoter_spec in E as [vid Hwf].
    destruct (decide (vid ∈ registeredVoters e)) as [Hin|Hout].
    + right. apply registerVoter_reject. intros vid' Hwf'.
      by rewrite <- (well_formed_voter_id _ _ Hwf'), (well_formed_voter_id _ _ Hwf).
    + left. exists vid. eauto using registerVoter_accept.
  - right. apply registerVoter_reject. intros vid Hwf.
    assert (isValidVoter voter = true) by (apply isValidVoter_spec; eauto). congruence.
Qed.

Lemma castVote_cases v c onSuccess onError e :
  (v ∈ registeredVoters e ∧ is_Some (candidateById e !! c) ∧ (v ∉ votedVoters e)
   ∧ castVote v c onSuccess onError e
     = (with_vote v c e, function_or_noop onSuccess {| voterId := v; candidateId := c |}))
  ∨ (∃ why, castVote v c onSuccess onError e = (e, function_or_noop onError why)).
Proof.
  unfold castVote.
  destruct (decide (v ∈ registeredVoters e)) as [Hr|Hr].
  2: { right. rewrite bool_decide_eq_false_2 by done. simpl. eauto. }
  rewrite bool_decide_eq_true_2 by done. simpl.
  destruct (decide (is_Some (candidateById e !! c))) as [Hc|Hc].
  2: { right. rewrite bool_decide_eq_false_2 by done. simpl. eauto. }
  rewrite bool_decide_eq_true_2 by done. simpl.
  destruct (decide (v ∈ votedVoters e)) as [Hv|Hv].
  { right. rewrite bool_decide_eq_true_2 by done. eauto. }
  left. rewrite bool_decide_eq_false_2 by done. done.
Qed.

(** ** The invariant of an election *)

Lemma inv_createElection roster : election_inv roster (createElection (Some roster)).
Proof.
  split_and!; try done. apply numeric_tally_empty.
Qed.

Lemma inv_perform roster e op : election_inv roster e → election_inv roster (perform e op).
Proof.
  intros (Hl & Hm & Hi & Ht & Hv & H0).
  destruct op as [voter|v c onSuccess onError|sortFn|]; simpl; [| |done..].
  - destruct (registerVoter_cases voter e) as [(vid & _ & _ & ->)| ->]; [|done].
    split_and!; simpl; try done. by apply union_subseteq_r'.
  - destruct (castVote_cases v c onSuccess onError e) as [(Hr & _ & _ & ->)|[why ->]]; [|done].
    split_and!; simpl; try done.
    + by apply tally_is_numeric.
    + apply union_subseteq. split; [by apply singleton_subseteq_l|done].
    + intros Hempty. exfalso. apply (not_elem_of_empty (C := gset string) v).
      rewrite <- Hempty. apply elem_of_union_l. by apply elem_of_singleton.
Qed.

Lemma inv_run roster ops e : election_inv roster e → election_inv roster (run ops e).
Proof.
  revert e. induction ops as [|op ops IH]; intros e He; [done|].
  apply IH. by apply inv_perform.
Qed.

Lemma inv_reachable roster ops : election_inv roster (run ops (createElection (Some roster))).
Proof. apply inv_run, inv_createElection. Qed.

Lemma known_candidate_lookup roster e c :
  election_inv roster e → is_Some (candidateById e !! c) ↔ known_candidate roster c.
Proof.
  intros (_ & -> & _). rewrite new_Map_is_Some. unfold known_candidate.
  by rewrite <- list_fmap_compose.
Qed.

(** The two sets only grow. *)
Lemma sets_grow_perform e op :
  registeredVoters e ⊆ registeredVoters (perform e op)
  ∧ votedVoters e ⊆ votedVoters (perform e op).
Proof.
  destruct op as [voter|v c onSuccess onError|sortFn|]; simpl; [| |done..].
  - destruct (registerVoter_cases voter e) as [(vid & _ & _ & ->)| ->]; [|done].
    simpl. set_solver.
  - destruct (castVote_cases v c onSuccess onError e) as [(_ & _ & _ & ->)|[why ->]]; [|done].
    simpl. set_solver.
Qed.

Lemma sets_grow_run ops e :
  registeredVoters e ⊆ registeredVoters (run ops e)
  ∧ votedVoters e ⊆ votedVoters (run ops e).
Proof.
  revert e. induction ops as [|op ops IH]; intros e; [done|].
  destruct (sets_grow_perform e op), (IH (perform e op)).
  split; etrans; eauto.
Qed.

(** The scenario of three voters: "V1" and "V3" vote for "C1", "V2" for
    "C2". *)
Example scenario_three_votes :
  let e := run [ RegisterVoter (voter_record "V1" "Mohan" 25);
                 RegisterVoter (voter_record "V2" "Geeta" 40);
                 RegisterVoter (voter_record "V3" "Kiran" 18);
                 CastVote "V1" "C1" None None;
                 CastVote "V2" "C2" None None;
                 CastVote "V3" "C1" None None ]
               (createElection (Some sample_roster)) in
  (λ r, (r_id r, r_votes r)) <$> getResults None e
    = [("C1", VNum (Fin 2)); ("C2", VNum (Fin 1))] ∧
  c_id <$> getWinner e = Some "C1" ∧
  getWinner (createElection (Some sample_roster)) = None ∧
  registerVoter (voter_record "V4" "Chhotu" 17) e = (e, false).
Proof. split_and!; by vm_compute. Qed.

(** ** registerVoter *)

(** C7: [registerVoter] returns true and adds the voter's id exactly when
    the voter is a well-formed object (non-empty string id and name, finite
    numeric age of at least 18) whose id is not registered yet; in every
    other case it returns false and leaves the election as it was; and once
    it has returned true for an id, it returns false for that id after any
    further calls. *)
Theorem registerVoter_accepts_once voter e :
  ((registerVoter voter e).2 = true
   ↔ ∃ vid, well_formed_voter voter vid ∧ vid ∉ registeredVoters e) ∧
  (∀ vid, well_formed_voter voter vid → vid ∉ registeredVoters e →
     registerVoter voter e = (with_registered vid e, true)) ∧
  ((registerVoter voter e).2 = false → (registerVoter voter e).1 = e) ∧
  (∀ vid, well_formed_voter voter vid → vid ∉ registeredVoters e →
     ∀ ops voter',
       well_formed_voter voter' vid →
       registerVoter voter' (run ops (registerVoter voter e).1)
       = (run ops (registerVoter voter e).1, false)).
Proof.
  split; [|split; [|split]].
  - split.
    + destruct (registerVoter_cases voter e) as [(vid & Hwf & Hnew & ->)| ->]; [eauto|done].
    + intros (vid & Hwf & Hnew). by rewrite (registerVoter_accept _ _ _ Hwf Hnew).
  - intros vid. apply registerVoter_accept.
  - destruct (registerVoter_cases voter e) as [(vid & Hwf & Hnew & ->)| ->]; done.
  - intros vid Hwf Hnew ops voter' Hwf'.
    rewrite (registerVoter_accept _ _ _ Hwf Hnew). simpl.
    apply registerVoter_reject. intros vid' Hwf''.
    rewrite <- (well_formed_voter_id _ _ Hwf''), (well_formed_voter_id _ _ Hwf').
    apply (sets_grow_run ops (with_registered vid e)). simpl. set_solver.
Qed.

Lemma voter_record_well_formed vid name age :
  vid ≠ "" → name ≠ "" → 18 ≤ age → well_formed_voter (voter_record vid name age) vid.
Proof.
  intros Hv Hn Ha. eexists _, name. split; [reflexivity|].
  split; [by rewrite lookup_insert_eq|].
  split; [done|].
  split; [rewrite lookup_insert_ne by done; by rewrite lookup_insert_eq|].
  split; [done|].
  exists age. split; [|done].
  rewrite !lookup_insert_ne by done. by rewrite lookup_singleton_eq.
Qed.

(** Mohan, 25, registers with a fresh election. *)
Lemma registerVoter_accepts_once_witness :
  registerVoter (voter_record "V1" "Mohan" 25) (createElection (Some sample_roster))
  = (with_registered "V1" (createElection (Some sample_roster)), true).
Proof.
  apply (proj1 (proj2 (registerVoter_accepts_once
    (voter_record "V1" "Mohan" 25) (createElection (Some sample_roster))))).
  - apply voter_record_well_formed; [discriminate|discriminate|lia].
  - apply not_elem_of_empty.
Defined.

(** ** castVote *)

Lemma castVote_not_registered v c onSuccess onError e :
  v ∉ registeredVoters e →
  castVote v c onSuccess onError e = (e, function_or_noop onError "voter not registered").
Proof. intros H. unfold castVote. by rewrite bool_decide_eq_false_2. Qed.

Lemma castVote_invalid_candidate v c onSuccess onError e :
  v ∈ registeredVoters e → candidateById e !! c = None →
  castVote v c onSuccess onError e = (e, function_or_noop onError "invalid candidate").
Proof.
  intros Hr Hc. unfold castVote. rewrite bool_decide_eq_true_2 by done.
  rewrite (bool_decide_eq_false_2 (is_Some _)); [done|]. rewrite Hc. by intros [? ?].
Qed.

Lemma castVote_already_voted v c onSuccess onError e :
  v ∈ registeredVoters e → is_Some (candidateById e !! c) → v ∈ votedVoters e →
  castVote v c onSuccess onError e = (e, function_or_noop onError "voter already voted").
Proof.
  intros Hr Hc Hv. unfold castVote. by rewrite !bool_decide_eq_true_2 by done.
Qed.

Lemma castVote_accepted v c onSuccess onError e :
  v ∈ registeredVoters e → is_Some (candidateById e !! c) → v ∉ votedVoters e →
  castVote v c onSuccess onError e
  = (with_vote v c e, function_or_noop onSuccess {| voterId := v; candidateId := c |}).
Proof.
  intros Hr Hc Hv. unfold castVote. rewrite !bool_decide_eq_true_2 by done.
  by rewrite bool_decide_eq_false_2.
Qed.

(** C2: [castVote] checks, in this order, that the voter is registered,
    that the candidate is one of the roster and that the voter has not
    voted; the first check that fails calls [onError] with its own reason,
    that call's result is returned, and the election is left as it was. *)
Theorem castVote_first_failing_check roster ops v c onSuccess onError :
  let e := run ops (createElection (Some roster)) in
  (v ∉ registeredVoters e →
     castVote v c onSuccess onError e
     = (e, function_or_noop onError "voter not registered")) ∧
  (v ∈ registeredVoters e → ¬ known_candidate roster c →
     castVote v c onSuccess onError e
     = (e, function_or_noop onError "invalid candidate")) ∧
  (v ∈ registeredVoters e → known_candidate roster c → v ∈ votedVoters e →
     castVote v c onSuccess onError e
     = (e, function_or_noop onError "voter already voted")).
Proof.
  intros e. pose proof (inv_reachable roster ops) as Hinv. fold e in Hinv.
  split; [|split].
  - apply castVote_not_registered.
  - intros Hr Hc. apply castVote_invalid_candidate; [done|].
    apply eq_None_not_Some. by rewrite (known_candidate_lookup roster).
  - intros Hr Hc Hv. apply castVote_already_voted; [done| |done].
    by rewrite (known_candidate_lookup roster).
Qed.

(** An unregistered voter "Vx" is told "voter not registered". *)
Lemma castVote_first_failing_check_witness :
  castVote "Vx" "C1" None (Some VStr) (run [] (createElection (Some sample_roster)))
  = (run [] (createElection (Some sample_roster)), VStr "voter not registered").
Proof.
  apply (proj1 (castVote_first_failing_check sample_roster [] "Vx" "C1" None (Some VStr))).
  apply not_elem_of_empty.
Defined.

(** C3: for a registered voter who has not voted and a candidate of the
    roster, [castVote] rebinds the tally to [tallyPure(tally, candidateId)],
    adds the voter to the voted set and returns what [onSuccess] returns for
    [{ voterId, candidateId }]; whatever the case, the value returned is the
    result of the one callback that was called; and a callback that is not
    callable is replaced by a function returning [undefined]. *)
Theorem castVote_records_vote roster ops v c onSuccess onError :
  let e := run ops (createElection (Some roster)) in
  (v ∈ registeredVoters e → known_candidate roster c → v ∉ votedVoters e →
     castVote v c onSuccess onError e
     = (with_vote v c e, function_or_noop onSuccess {| voterId := v; candidateId := c |})) ∧
  ((castVote v c onSuccess onError e).2
     = function_or_noop onSuccess {| voterId := v; candidateId := c |}
   ∨ ∃ why, (castVote v c onSuccess onError e).2 = function_or_noop onError why) ∧
  (∀ r : receipt, function_or_noop None r = VUndefined) ∧
  (∀ why : string, function_or_noop None why = VUndefined) ∧
  (castVote v c None None e).2 = VUndefined.
Proof.
  intros e. pose proof (inv_reachable roster ops) as Hinv. fold e in Hinv.
  split; [|split; [|split; [|split]]]; try done.
  - intros Hr Hc Hv. apply castVote_accepted; [done| |done].
    by rewrite (known_candidate_lookup roster).
  - destruct (castVote_cases v c onSuccess onError e) as [(_ & _ & _ & ->)|[why ->]]; eauto.
  - destruct (castVote_cases v c None None e) as [(_ & _ & _ & ->)|[why ->]]; done.
Qed.

(** Mohan, registered, votes for "C1": the success callback's result comes back. *)
Lemma castVote_records_vote_witness :
  castVote "V1" "C1" (Some (λ _, VStr "voted!")) None sample_registered
  = (with_vote "V1" "C1" sample_registered, VStr "voted!").
Proof.
  apply (proj1 (castVote_records_vote sample_roster
    [RegisterVoter (voter_record "V1" "Mohan" 25)] "V1" "C1"
    (Some (λ _, VStr "voted!")) None)).
  - by vm_compute.
  - apply list_elem_of_here.
  - intros H. vm_compute in H. discriminate.
Defined.

(** ** One vote per voter *)

(** C1 (as amended): in every election, whatever was called on it, each
    voter who has voted is registered; and once [castVote] has accepted a
    vote of a voter, every later [castVote] of that voter is refused and
    leaves the tally and both sets as they are: with reason "voter already
    voted" when it names a candidate of the roster, and with reason "invalid
    candidate" (the earlier check) when it does not. *)
Theorem one_vote_per_voter roster :
  (∀ ops, votedVoters (run ops (createElection (Some roster)))
          ⊆ registeredVoters (run ops (createElection (Some roster)))) ∧
  (∀ ops1 ops2 v c onSuccess onError,
     let e0 := run ops1 (createElection (Some roster)) in
     v ∈ registeredVoters e0 → known_candidate roster c → v ∉ votedVoters e0 →
     let e2 := run ops2 (castVote v c onSuccess onError e0).1 in
     ∀ c' onSuccess' onError',
       castVote v c' onSuccess' onError' e2
       = (e2, function_or_noop onError'
                (if decide (known_candidate roster c')
                 then "voter already voted" else "invalid candidate"))).
Proof.
  split.
  - intros ops. apply (inv_reachable roster ops).
  - intros ops1 ops2 v c onSuccess onError e0 Hr Hc Hv e2 c' onSuccess' onError'.
    pose proof (inv_reachable roster ops1) as Hinv0. fold e0 in Hinv0.
    assert (castVote v c onSuccess onError e0 = (with_vote v c e0,
              function_or_noop onSuccess {| voterId := v; candidateId := c |})) as Hcast.
    { apply castVote_accepted; [done| |done]. by rewrite (known_candidate_lookup roster). }
    assert (election_inv roster (with_vote v c e0)) as Hinv1.
    { pose proof (inv_perform roster e0 (CastVote v c onSuccess onError) Hinv0) as H.
      simpl in H. by rewrite Hcast in H. }
    assert (election_inv roster e2) as Hinv2.
    { unfold e2. rewrite Hcast. by apply inv_run. }
    assert (v ∈ votedVoters e2) as Hv2.
    { unfold e2. rewrite Hcast. apply (sets_grow_run ops2 (with_vote v c e0)).
      simpl. apply elem_of_union_l. by apply elem_of_singleton. }
    assert (v ∈ registeredVoters e2) as Hr2 by (by apply Hinv2).
    case_decide as Hc'.
    + apply castVote_already_voted; [done| |done].
      by rewrite (known_candidate_lookup roster).
    + apply castVote_invalid_candidate; [done|].
      apply eq_None_not_Some. by rewrite (known_candidate_lookup roster).
Qed.

(** Mohan has voted; his second vote for "C2" is refused as "voter already
    voted". *)
Lemma one_vote_per_voter_witness :
  castVote "V1" "C2" None (Some VStr) sample_voted
  = (sample_voted, VStr "voter already voted").
Proof.
  apply (proj2 (one_vote_per_voter sample_roster)
           [RegisterVoter (voter_record "V1" "Mohan" 25)] [] "V1" "C1" None None).
  - by vm_compute.
  - apply list_elem_of_here.
  - intros H. vm_compute in H. discriminate.
Defined.

(** C1 (as stated) fails: Mohan has voted, and his later [castVote] that
    names the unknown candidate "C9" reports "invalid candidate", not
    "voter already voted". *)
Lemma second_vote_unknown_candidate_counterexample :
  (castVote "V1" "C1" (Some (λ _, VStr "voted!")) (Some VStr) sample_registered).2
    = VStr "voted!" ∧
  "V1" ∈ votedVoters sample_voted ∧
  (castVote "V1" "C9" None (Some VStr) sample_voted).2 = VStr "invalid candidate" ∧
  (castVote "V1" "C9" None (Some VStr) sample_voted).2 ≠ VStr "voter already voted".
Proof.
  split; [by vm_compute|]. split; [by vm_compute|].
  split; [by vm_compute|]. intros H. vm_compute in H. discriminate.
Qed.

(** ** Sorting *)

Section array_sort.
Context {A : Type} (comparefn : A → A → number).

Lemma sort_insert_perm x l : sort_insert comparefn x l ≡ₚ x :: l.
Proof.
  induction l as [|y l IH]; simpl; [done|].
  destruct (positive_result _); [|done].
  rewrite IH. apply Permutation_swap.
Qed.

Lemma array_sort_perm l : array_sort comparefn l ≡ₚ l.
Proof.
  induction l as [|x l IH]; simpl; [done|].
  by rewrite sort_insert_perm, IH.
Qed.

(** The sort commutes with a relabelling of the elements. *)
Lemma array_sort_fmap {B} (f : B → A) l :
  array_sort comparefn (f <$> l) = f <$> array_sort (λ a b, comparefn (f a) (f b)) l.
Proof.
  induction l as [|x l IH]; [done|].
  unfold array_sort in *. rewrite fmap_cons. cbn [foldr]. rewrite IH.
  generalize (foldr (sort_insert (λ a b, comparefn (f a) (f b))) [] l) as s.
  induction s as [|y s IHs]; [done|].
  rewrite fmap_cons. cbn [sort_insert].
  destruct (positive_result _); [|done]. by rewrite fmap_cons, IHs.
Qed.

Context (R : relation A) `{!Transitive R}.

Lemma sort_insert_sorted dom x s :
  decides comparefn R dom → x ∈ dom → s ⊆ dom → x ∉ s →
  StronglySorted R s → StronglySorted R (sort_insert comparefn x s).
Proof.
  intros Hdec Hx. induction s as [|y s IH]; intros Hs Hnew Hsorted; simpl.
  { repeat constructor. }
  apply StronglySorted_inv in Hsorted as [Hsorted Hy].
  apply not_elem_of_cons in Hnew as [Hxy Hnew].
  assert (y ∈ dom) as Hyd by (apply Hs; left).
  assert (s ⊆ dom) as Hsd by (intros z Hz; apply Hs; by right).
  pose proof (Hdec x y Hx Hyd Hxy) as Hcmp.
  destruct (positive_result (comparefn x y)).
  - constructor; [by apply IH|].
    rewrite sort_insert_perm. by constructor.
  - constructor; [by constructor|].
    constructor; [done|].
    eapply Forall_impl; [exact Hy|]. intros z Hz. by etrans.
Qed.

Lemma array_sort_sorted l :
  NoDup l → decides comparefn R l → StronglySorted R (array_sort comparefn l).
Proof.
  intros Hnd Hdec. 
  assert (∀ k, k ⊆ l → NoDup k → StronglySorted R (array_sort comparefn k)) as H.
  { induction k as [|x k IH]; intros Hk Hndk; simpl; [constructor|].
    apply NoDup_cons in Hndk as [Hx Hndk].
    apply (sort_insert_sorted l); [done|apply Hk; left| | |].
    - intros z Hz. apply Hk. right. by rewrite <- (array_sort_perm k).
    - by rewrite array_sort_perm.
    - apply IH; [|done]. intros z Hz. apply Hk. by right. }
  by apply H.
Qed.
End array_sort.

(** ** getResults *)

Lemma elem_of_indexed roster p :
  p ∈ indexed roster ↔ roster !! p.1 = Some p.2.
Proof.
  unfold indexed. rewrite elem_of_lookup_imap. split.
  - by intros (i & c & -> & Hc).
  - destruct p as [i c]. eauto.
Qed.

Lemma NoDup_indexed roster : NoDup (indexed roster).
Proof.
  apply NoDup_alt. intros i j p. unfold indexed.
  rewrite !list_lookup_imap_Some. intros (c & _ & ->) (c' & _ & [=]). done.
Qed.

Lemma snd_indexed roster : snd <$> indexed roster = roster.
Proof.
  unfold indexed. rewrite fmap_imap.
  rewrite <- (list_fmap_id roster) at 2. apply (imap_const id).
Qed.

Lemma nullish_count tally k :
  numeric_tally tally →
  nullish (get_prop tally k) (VNum (Fin 0)) = VNum (Fin (vote_count tally k)).
Proof.
  intros (o & -> & Ho). unfold vote_count. rewrite get_prop_object.
  destruct (o !! k) as [v|] eqn:Hk; [|done].
  by destruct (Ho _ _ Hk) as (z & -> & _).
Qed.

(** Under a numeric tally the record of a candidate whose id names no
    inherited member holds the count of the id. *)
Lemma record_row tally c :
  numeric_tally tally → c_id c ∉ Object_prototype_members → record tally c = row tally c.
Proof.
  intros Hn Hc. unfold record, row. by rewrite member_plain, nullish_count.
Qed.

(** Whatever the id, the count that a record reports is the count of the
    tally: an inherited member is no count. *)
Lemma result_count_record tally c :
  numeric_tally tally → result_count (record tally c) = vote_count tally (c_id c).
Proof.
  intros (o & -> & Ho). unfold result_count, record, vote_count. cbn [r_votes].
  rewrite member_object, get_prop_object.
  destruct (o !! c_id c) as [v|] eqn:Hk.
  - by destruct (Ho _ _ Hk) as (z & -> & _).
  - simpl. destruct (decide (c_id c ∈ Object_prototype_members)) as [Hc|Hc].
    + by destruct (inherited_member _ Hc) as [-> | ->].
    + by rewrite inherited_plain.
Qed.

(** The records before sorting. *)
Lemma getResults_records e sortFn :
  getResults sortFn e
  = array_sort (default (default_order (candidateIndex e)) sortFn)
               (record (votes e) <$> candidateList e).
Proof. unfold getResults. by destruct sortFn. Qed.

Lemma getResults_perm_records e sortFn :
  getResults sortFn e ≡ₚ record (votes e) <$> candidateList e.
Proof. rewrite getResults_records. apply array_sort_perm. Qed.

(** When no id names an inherited member, they are the rows of the
    roster. *)
Lemma getResults_rows roster e sortFn :
  election_inv roster e → plain_ids roster →
  getResults sortFn e
  = array_sort (default (default_order (candidateIndex e)) sortFn) (row (votes e) <$> roster).
Proof.
  intros (Hl & _ & _ & Ht & _ & _) Hplain. rewrite getResults_records, Hl. f_equal.
  apply Forall_fmap_ext. eapply Forall_impl; [exact Hplain|].
  intros c Hc. by apply record_row.
Qed.

Lemma getResults_perm roster e sortFn :
  election_inv roster e → plain_ids roster →
  getResults sortFn e ≡ₚ row (votes e) <$> roster.
Proof. intros He Hplain. rewrite (getResults_rows roster) by done. apply array_sort_perm. Qed.

Lemma fst_index_pairs roster :
  (imap (λ idx c, (c_id c, Z.of_nat idx)) roster).*1 = c_id <$> roster.
Proof. rewrite fmap_imap. apply (imap_const c_id). Qed.

Lemma candidateIndex_lookup roster e i c :
  election_inv roster e → distinct_ids roster → roster !! i = Some c →
  candidateIndex e !! c_id c = Some (Z.of_nat i).
Proof.
  intros (_ & _ & -> & _) Hnd Hc. apply new_Map_lookup.
  - by rewrite fst_index_pairs.
  - by apply (elem_of_lookup_imap_2 (λ idx c, (c_id c, Z.of_nat idx))).
Qed.

Lemma candidateById_lookup roster e c :
  election_inv roster e → distinct_ids roster → c ∈ roster →
  candidateById e !! c_id c = Some c.
Proof.
  intros (_ & -> & _) Hnd Hc. apply new_Map_lookup.
  - by rewrite <- list_fmap_compose.
  - by apply (list_elem_of_fmap_2 (λ c, (c_id c, c))).
Qed.

Instance ranks_before_trans tally : Transitive (ranks_before tally).
Proof. intros p q r. unfold ranks_before. lia. Qed.

Lemma ranks_before_asym tally p q : ranks_before tally p q → ranks_before tally q p → False.
Proof. unfold ranks_before. lia. Qed.

(** With distinct ids the comparator of [getResults] decides the default
    order on the indexed roster. *)
Lemma default_order_decides roster e :
  election_inv roster e → distinct_ids roster →
  decides (λ p q, default_order (candidateIndex e) (row (votes e) p.2) (row (votes e) q.2))
          (ranks_before (votes e)) (indexed roster).
Proof.
  intros He Hnd [i c] [j d] Hp Hq Hne.
  apply elem_of_indexed in Hp, Hq. simpl in Hp, Hq.
  assert (i ≠ j) as Hij by (intros ->; congruence).
  unfold default_order, ranks_before. simpl.
  rewrite (candidateIndex_lookup roster e i c), (candidateIndex_lookup roster e j d) by done.
  simpl. unfold positive_result.
  destruct (Z.eqb_spec (vote_count (votes e) (c_id d)) (vote_count (votes e) (c_id c)))
    as [Heq|Hneq]; simpl.
  - destruct (Z.ltb_spec 0 (Z.of_nat i + - Z.of_nat j)); lia.
  - unfold js_sub. simpl.
    destruct (Z.ltb_spec 0 (vote_count (votes e) (c_id d) + - vote_count (votes e) (c_id c))); lia.
Qed.

Lemma StronglySorted_by_lookup {A} (R : relation A) l :
  (∀ i j x y, (i < j)%nat → l !! i = Some x → l !! j = Some y → R x y) →
  StronglySorted R l.
Proof.
  induction l as [|x l IH]; intros H; constructor.
  - apply IH. intros i j y z Hij Hy Hz. apply (H (S i) (S j)); [lia|done..].
  - apply Forall_lookup. intros j y Hy. apply (H 0%nat (S j)); [lia|done..].
Qed.

(** Without votes the roster itself is in the default order. *)
Lemma indexed_ranked tally roster :
  (∀ c, c ∈ roster → vote_count tally (c_id c) = 0) →
  StronglySorted (ranks_before tally) (indexed roster).
Proof.
  intros Hzero. apply StronglySorted_by_lookup. intros i j p q Hij. unfold indexed.
  rewrite !list_lookup_imap_Some. intros (c & Hc & ->) (d & Hd & ->).
  right. simpl. split; [|done].
  rewrite !Hzero; [done|by eapply list_elem_of_lookup_2..].
Qed.

Lemma getResults_ranked roster e :
  election_inv roster e → plain_ids roster → distinct_ids roster →
  ∃ ranked,
    ranked ≡ₚ indexed roster ∧
    StronglySorted (ranks_before (votes e)) ranked ∧
    getResults None e = row (votes e) ∘ snd <$> ranked.
Proof.
  intros He Hplain Hnd.
  exists (array_sort (λ p q, default_order (candidateIndex e) (row (votes e) p.2) (row (votes e) q.2))
                     (indexed roster)).
  split; [apply array_sort_perm|]. split.
  - apply array_sort_sorted; [apply _|apply NoDup_indexed|by apply default_order_decides].
  - rewrite (getResults_rows roster) by done. simpl.
    rewrite <- (snd_indexed roster) at 1.
    rewrite <- list_fmap_compose.
    apply (array_sort_fmap (default_order (candidateIndex e)) (row (votes e) ∘ snd)).
Qed.

Lemma ranked_unique tally (l1 l2 : list (nat * candidate)) :
  StronglySorted (ranks_before tally) l1 → StronglySorted (ranks_before tally) l2 →
  l1 ≡ₚ l2 → l1 = l2.
Proof.
  apply StronglySorted_unique_strong.
  intros p q _ _ H1 H2. destruct (ranks_before_asym _ _ _ H1 H2).
Qed.

Lemma getResults_indexed roster e :
  election_inv roster e → plain_ids roster →
  getResults None e
  = row (votes e) ∘ snd
      <$> array_sort (λ p q, default_order (candidateIndex e)
                               (row (votes e) p.2) (row (votes e) q.2))
                     (indexed roster).
Proof.
  intros He Hplain. rewrite (getResults_rows roster) by done. simpl.
  rewrite <- (snd_indexed roster) at 1. rewrite <- list_fmap_compose.
  apply (array_sort_fmap (default_order (candidateIndex e)) (row (votes e) ∘ snd)).
Qed.

Instance listed_before_trans e : Transitive (listed_before e).
Proof. intros p q r. unfold listed_before. lia. Qed.

Lemma default_order_decides_listed roster e :
  decides (λ p q, default_order (candidateIndex e) (row (votes e) p.2) (row (votes e) q.2))
          (listed_before e) (indexed roster).
Proof.
  intros [i c] [j d] _ _ _. unfold default_order, listed_before, positive_result. simpl.
  destruct (Z.eqb_spec (vote_count (votes e) (c_id d)) (vote_count (votes e) (c_id c)))
    as [Heq|Hneq]; simpl.
  - destruct (Z.ltb_spec 0 (default 0 (candidateIndex e !! c_id c)
                            + - default 0 (candidateIndex e !! c_id d))); lia.
  - unfold js_sub. simpl.
    destruct (Z.ltb_spec 0 (vote_count (votes e) (c_id d)
                            + - vote_count (votes e) (c_id c))); lia.
Qed.

Lemma getResults_reported_order roster e :
  election_inv roster e → plain_ids roster →
  StronglySorted (reported_before e) (getResults None e).
Proof.
  intros He Hplain. rewrite (getResults_indexed roster) by done.
  apply (StronglySorted_fmap _ (listed_before e)); [done|].
  apply array_sort_sorted; [apply _|apply NoDup_indexed|apply default_order_decides_listed].
Qed.

Lemma getResults_descending roster e :
  election_inv roster e → plain_ids roster →
  StronglySorted (λ a b, result_count b ≤ result_count a) (getResults None e).
Proof.
  intros He Hplain. pose proof (getResults_reported_order roster e He Hplain) as Hsorted.
  induction Hsorted as [|a l _ IH Ha]; constructor; [done|].
  eapply Forall_impl; [exact Ha|]. intros b. unfold reported_before. lia.
Qed.




(** ** getWinner *)

Lemma strict_eq_zero z : strict_eq (VNum (Fin z)) (VNum (Fin 0)) = true ↔ z = 0.
Proof. simpl. apply Z.eqb_eq. Qed.

Lemma candidate_copy w :
  {| c_id := c_id w; c_name := c_name w; c_party := c_party w |} = w.
Proof. by destruct w. Qed.

Lemma strict_eq_zero_iff v : strict_eq v (VNum (Fin 0)) = true ↔ v = VNum (Fin 0).
Proof.
  destruct v as [| |b|[z| | |]|s|o|]; simpl; split; try discriminate.
  - by intros ->%Z.eqb_eq.
  - by intros [= ->].
Qed.

(** [getWinner] read off the first record of [getResults()], whatever the
    ids of the roster. *)
Lemma getWinner_head roster e first rest :
  election_inv roster e → getResults None e = first :: rest →
  ∃ winner,
    candidateById e !! r_id first = Some winner ∧
    getWinner e = if strict_eq (r_votes first) (VNum (Fin 0)) then None else Some winner.
Proof.
  intros He Hres.
  assert (first ∈ record (votes e) <$> roster) as Hin.
  { replace roster with (candidateList e) by apply He.
    rewrite <- (getResults_perm_records e None), Hres. left. }
  apply list_elem_of_fmap in Hin as (c & -> & Hc).
  assert (is_Some (candidateById e !! c_id c)) as [winner Hw].
  { rewrite (known_candidate_lookup roster) by done. by apply list_elem_of_fmap_2. }
  exists winner. split; [done|].
  unfold getWinner. rewrite Hres. cbn [record r_votes r_id].
  by rewrite Hw, candidate_copy.
Qed.

(** [getWinner] read off the first record of [getResults()]. *)
Lemma getWinner_first roster e first rest :
  election_inv roster e → plain_ids roster → getResults None e = first :: rest →
  ∃ c winner,
    c ∈ roster ∧ first = row (votes e) c ∧ candidateById e !! c_id c = Some winner ∧
    getWinner e = if decide (vote_count (votes e) (c_id c) = 0) then None else Some winner.
Proof.
  intros He Hplain Hres.
  assert (first ∈ row (votes e) <$> roster) as Hin.
  { rewrite <- (getResults_perm roster e None He Hplain), Hres. left. }
  apply list_elem_of_fmap in Hin as (c & -> & Hc).
  assert (is_Some (candidateById e !! c_id c)) as [winner Hw].
  { rewrite (known_candidate_lookup roster) by done. by apply list_elem_of_fmap_2. }
  exists c, winner. split_and!; try done.
  unfold getWinner. rewrite Hres. cbn [row r_votes r_id].
  rewrite Hw, candidate_copy.
  case_decide as Hz.
  - by rewrite (proj2 (strict_eq_zero _) Hz).
  - destruct (strict_eq _ _) eqn:E; [|done]. by apply strict_eq_zero in E.
Qed.

Lemma result_count_row tally c : result_count (row tally c) = vote_count tally (c_id c).
Proof. reflexivity. Qed.

(** The first record of [getResults()] has the most votes. *)
Lemma first_result_has_most roster e first rest c :
  election_inv roster e → plain_ids roster →
  getResults None e = first :: rest → c ∈ roster →
  vote_count (votes e) (c_id c) ≤ result_count first.
Proof.
  intros He Hplain Hres Hc.
  pose proof (getResults_reported_order roster e He Hplain) as Hsorted.
  rewrite Hres in Hsorted. apply StronglySorted_inv in Hsorted as [_ Hfirst].
  assert (row (votes e) c ∈ first :: rest) as Hin.
  { rewrite <- Hres, (getResults_perm roster e None He Hplain). by apply list_elem_of_fmap_2. }
  apply elem_of_cons in Hin as [<-|Hin]; [by rewrite result_count_row|].
  rewrite Forall_forall in Hfirst. specialize (Hfirst _ Hin).
  unfold reported_before in Hfirst. rewrite result_count_row in Hfirst. lia.
Qed.

Lemma candidateById_is_last roster e k c :
  election_inv roster e → candidateById e !! k = Some c →
  ∃ i, roster !! i = Some c ∧ c_id c = k
       ∧ ∀ j d, roster !! j = Some d → c_id d = k → (j ≤ i)%nat.
Proof.
  intros (_ & -> & _). rewrite new_Map_last. intros (i & Hi & Hlast).
  rewrite list_lookup_fmap in Hi.
  destruct (roster !! i) as [c'|] eqn:Hc; [|done]. injection Hi as <- ->.
  exists i. split_and!; try done. intros j d Hj Hd. apply (Hlast j d).
  by rewrite list_lookup_fmap, Hj, <- Hd.
Qed.




(** ** The store: new objects and the objects that were there *)

Lemma alloc_fresh o σ : σ !! (Store.alloc o σ).2 = None.
Proof. apply not_elem_of_dom. simpl. apply is_fresh. Qed.

Lemma alloc_all_spec os σ σ' ls :
  Store.alloc_all os σ = (σ', ls) →
  σ ⊆ σ' ∧ NoDup ls ∧ Forall (λ l, σ !! l = None) ls
  ∧ Forall2 (λ l o, σ' !! l = Some o) ls os.
Proof.
  revert σ σ' ls. induction os as [|o os IH]; intros σ σ' ls; simpl.
  { intros [= <- <-]. split_and!; [done|constructor..]. }
  pose proof (alloc_fresh o σ) as Hfresh.
  destruct (Store.alloc_all os (<[fresh (dom σ) := o]> σ)) as [σ2 ls'] eqn:Hall.
  simpl in Hfresh. intros [= <- <-].
  destruct (IH _ _ _ Hall) as (Hsub & Hnd & Hnew & Hread).
  assert (σ ⊆ <[fresh (dom σ) := o]> σ) as Hsub0 by (by apply insert_subseteq).
  split_and!.
  - by etrans.
  - constructor; [|done]. intros Hin.
    rewrite Forall_forall in Hnew. specialize (Hnew _ Hin). cbv beta in Hnew.
    by rewrite lookup_insert_eq in Hnew.
  - constructor; [done|]. eapply Forall_impl; [exact Hnew|].
    intros l Hl. cbv beta in *. by eapply lookup_weaken_None.
  - constructor; [|done]. eapply lookup_weaken; [|exact Hsub].
    by rewrite lookup_insert_eq.
Qed.

Lemma Forall2_zip {A B} (P : A → B → Prop) l k :
  Forall2 P l k → Forall (λ p, P p.1 p.2) (zip l k).
Proof. induction 1; simpl; by constructor. Qed.

Lemma keeps_subseteq σ σ' : σ ⊆ σ' → keeps σ σ'.
Proof. intros Hsub l [o Ho]. rewrite Ho. by eapply lookup_weaken. Qed.

Lemma keeps_trans σ1 σ2 σ3 : keeps σ1 σ2 → keeps σ2 σ3 → keeps σ1 σ3.
Proof.
  intros H12 H23 l Hl. rewrite <- (H12 l Hl). apply H23. by rewrite (H12 l Hl).
Qed.

Lemma keeps_read_candidate σ σ' l c :
  keeps σ σ' → Store.read_candidate σ l = Some c → Store.read_candidate σ' l = Some c.
Proof.
  unfold Store.read_candidate. intros Hk Hr.
  destruct (σ !! l) as [o|] eqn:Ho; [|done]. by rewrite (Hk l), Ho by (by rewrite Ho).
Qed.

Lemma keeps_read_tally σ σ' l t :
  keeps σ σ' → Store.read_tally σ l = Some t → Store.read_tally σ' l = Some t.
Proof.
  unfold Store.read_tally. intros Hk Hr.
  destruct (σ !! l) as [o|] eqn:Ho; [|done]. by rewrite (Hk l), Ho by (by rewrite Ho).
Qed.

Lemma keeps_read_array σ σ' l ls :
  keeps σ σ' → Store.read_array σ l = Some ls → Store.read_array σ' l = Some ls.
Proof.
  unfold Store.read_array. intros Hk Hr.
  destruct (σ !! l) as [o|] eqn:Ho; [|done]. by rewrite (Hk l), Ho by (by rewrite Ho).
Qed.

(** An election is represented as before in any store that keeps the
    objects that were there. *)
Lemma represents_keeps env σ σ' e :
  keeps σ σ' → represents env σ e → represents env σ' e.
Proof.
  intros Hk (roster & tally & Hr & Hcs & Hby & Hdom & Hidx & Ht & Hv & Hreg & Hvoted).
  exists roster, tally. split_and!; try done.
  - by eapply keeps_read_array.
  - apply mapM_Some. apply mapM_Some in Hcs.
    eapply Forall2_impl; [exact Hcs|]. intros l c. by apply keeps_read_candidate.
  - intros k. rewrite <- (Hby k).
    destruct (Store.candidateById env !! k) as [l|] eqn:Hl; [|done]. simpl.
    destruct (Hdom k) as [c Hc]; [by rewrite Hl|].
    pose proof (Hby k) as Hbk. rewrite Hl, Hc in Hbk. simpl in Hbk.
    rewrite Hbk. by eapply keeps_read_candidate.
  - by eapply keeps_read_tally.
Qed.

Lemma same_but_at_keeps ls σ σ' σ'' :
  keeps σ σ' → Forall (λ l, σ !! l = None) ls → same_but_at ls σ' σ'' → keeps σ σ''.
Proof.
  intros Hk Hnew Hsame l Hl. rewrite Hsame; [by apply Hk|].
  intros Hin. rewrite Forall_forall in Hnew. rewrite (Hnew _ Hin) in Hl.
  by destruct Hl.
Qed.

(** [getResults] over the store: it succeeds, the array it returns and the
    records in it are new objects, their contents are the records of the
    election, and every object that was there is kept. *)
Lemma getResults_store env σ e sortFn :
  represents env σ e →
  ∃ σ' results refs,
    Store.getResults sortFn env σ = Some (σ', results) ∧
    Store.read_array σ' results = Some refs ∧
    mapM (Store.read_result σ') refs = Some (getResults sortFn e) ∧
    NoDup (results :: refs) ∧
    Forall (λ l, σ !! l = None) (results :: refs) ∧
    keeps σ σ'.
Proof.
  intros (roster & tally & Hr & Hcs & Hby & Hdom & Hidx & Ht & Hv & Hreg & Hvoted).
  unfold Store.getResults. rewrite Hr. cbn [mbind option_bind].
  rewrite Hcs. cbn [mbind option_bind]. rewrite Ht. cbn [mbind option_bind].
  set (records := (λ c, {| r_id := c_id c; r_name := c_name c; r_party := c_party c;
         r_votes := nullish (member (VObject tally) (c_id c)) (VNum (Fin 0)) |})
         <$> candidateList e).
  set (comparefn := default (default_order (Store.candidateIndex env)) sortFn).
  destruct (Store.alloc_all (Store.OResult <$> records) σ) as [σ1 refs] eqn:Hall.
  destruct (alloc_all_spec _ _ _ _ Hall) as (Hsub & Hnd & Hnew & Hread).
  set (results := fresh (dom σ1)).
  set (sorted := array_sort (λ a b, comparefn a.2 b.2) (zip refs records)).
  assert (σ1 !! results = None) as Hfresh by apply (alloc_fresh (Store.OArray refs) σ1).
  assert (length refs = length records) as Hlen.
  { apply Forall2_length in Hread. by rewrite length_fmap in Hread. }
  assert (sorted.*1 ≡ₚ refs) as Hfst.
  { unfold sorted. rewrite array_sort_perm. rewrite fst_zip; [done|lia]. }
  assert (sorted.*2 = getResults sortFn e) as Hsnd.
  { unfold sorted.
    rewrite <- (array_sort_fmap comparefn snd (zip refs records)).
    rewrite snd_zip by lia.
    unfold getResults, comparefn, records. rewrite Hidx, Hv. by destruct sortFn. }
  assert (σ1 ⊆ <[results := Store.OArray sorted.*1]> (<[results := Store.OArray refs]> σ1))
    as Hsub1.
  { rewrite insert_insert_eq. by apply insert_subseteq. }
  assert ((<[results := Store.OArray sorted.*1]> (<[results := Store.OArray refs]> σ1))
            !! results = Some (Store.OArray sorted.*1)) as Harr
    by (by rewrite lookup_insert_eq).
  set (σ' := <[results := Store.OArray sorted.*1]> (<[results := Store.OArray refs]> σ1)) in *.
  exists σ', results, (sorted.*1). split; [reflexivity|]. split_and!.
  - unfold Store.read_array. by rewrite Harr.
  - rewrite <- Hsnd. apply mapM_Some. apply Forall2_fmap, Forall_Forall2_diag.
    unfold sorted. rewrite array_sort_perm.
    apply (Forall2_zip (λ l r, Store.read_result _ l = Some r)).
    apply Forall2_fmap_r in Hread.
    eapply Forall2_impl; [exact Hread|]. intros l r Hl. cbv beta in Hl.
    unfold Store.read_result. by rewrite (lookup_weaken _ _ _ _ Hl Hsub1).
  - constructor; [|by rewrite Hfst]. rewrite Hfst. intros Hin.
    apply list_elem_of_lookup in Hin as [i Hi].
    destruct (Forall2_lookup_l _ _ _ _ _ Hread Hi) as (o & _ & Ho). congruence.
  - constructor.
    + by eapply lookup_weaken_None.
    + by rewrite Hfst.
  - apply keeps_subseteq. by etrans.
Qed.

(** [getWinner] over the store: it succeeds, what it returns is null or a
    new object with the contents of the election's winner, and every object
    that was there is kept. *)
Lemma getWinner_store env σ e :
  represents env σ e →
  ∃ σ' winner,
    Store.getWinner env σ = Some (σ', winner) ∧
    winner ≫= Store.read_candidate σ' = getWinner e ∧
    (∀ l, winner = Some l → σ !! l = None) ∧
    keeps σ σ'.
Proof.
  intros Hrep.
  destruct (getResults_store env σ e None Hrep)
    as (σ1 & results & refs & Hget & Harr & Hcontents & _ & _ & Hkeep).
  destruct Hrep as (roster & tally & _ & _ & Hby & Hdom & _).
  unfold Store.getWinner. rewrite Hget. simpl. rewrite Harr. simpl.
  apply mapM_Some in Hcontents. unfold getWinner.
  destruct Hcontents as [|first r refs' rs Hfirst _]; simpl.
  { exists σ1, None. by split_and!. }
  rewrite Hfirst. simpl.
  destruct (strict_eq (r_votes r) (VNum (Fin 0))).
  { exists σ1, None. by split_and!. }
  specialize (Hby (r_id r)). specialize (Hdom (r_id r)).
  destruct (Store.candidateById env !! r_id r) as [wl|] eqn:Hwl; simpl in Hby.
  - destruct Hdom as [c Hc]; [done|]. rewrite Hc in Hby |- *.
    rewrite (keeps_read_candidate σ σ1 wl c Hkeep Hby). simpl.
    pose proof (alloc_fresh (Store.OCandidate
      {| c_id := c_id c; c_name := c_name c; c_party := c_party c |}) σ1) as Hfresh.
    simpl in Hfresh.
    eexists _, (Some (fresh (dom σ1))). split; [reflexivity|]. split_and!.
    + simpl. unfold Store.read_candidate. by rewrite lookup_insert_eq.
    + intros l [= <-]. destruct (σ !! fresh (dom σ1)) as [o|] eqn:Ho; [|done].
      rewrite <- Ho, <- (Hkeep (fresh (dom σ1))) by (by rewrite Ho). done.
    + eapply keeps_trans; [exact Hkeep|]. apply keeps_subseteq. by apply insert_subseteq.
  - rewrite <- Hby. exists σ1, None. by split_and!.
Qed.

(** ** Aliasing *)

Lemma same_but_at_write_all ls o σ : same_but_at ls σ (Store.write_all ls o σ).
Proof.
  intros l Hl. induction ls as [|l' ls IH]; [done|].
  apply not_elem_of_cons in Hl as [Hne Hl]. simpl.
  rewrite lookup_insert_ne by done. by apply IH.
Qed.

(** The store [voted_store] holds the sample election after Mohan's
    vote. *)
Lemma voted_store_represents : represents voted_closure voted_store sample_voted.
Proof.
  exists [1%positive; 2%positive], {["C1" := VNum (Fin 1)]}.
  split_and!; try reflexivity.
  - intros k.
    destruct (decide (k = "C1")) as [->|H1]; [reflexivity|].
    destruct (decide (k = "C2")) as [->|H2]; [reflexivity|].
    change (Store.candidateById voted_closure)
      with (<["C1" := 1%positive]> (<["C2" := 2%positive]> (∅ : gmap string positive))).
    change (candidateById sample_voted)
      with (<["C2" := {| c_id := "C2"; c_name := "Pradhan Sita"; c_party := "Lok" |}]>
              (<["C1" := {| c_id := "C1"; c_name := "Sarpanch Ram"; c_party := "Janata" |}]>
                 (∅ : gmap string candidate))).
    by rewrite !lookup_insert_ne, !lookup_empty by done.
  - intros k.
    destruct (decide (k = "C1")) as [->|H1]; [intros _; by eexists|].
    destruct (decide (k = "C2")) as [->|H2]; [intros _; by eexists|].
    change (Store.candidateById voted_closure)
      with (<["C1" := 1%positive]> (<["C2" := 2%positive]> (∅ : gmap string positive))).
    rewrite !lookup_insert_ne, !lookup_empty by done. by intros [? ?].
Qed.




(** ** tallyPure: the claims *)

Lemma tallyPure_store σ l t c :
  Store.read_tally σ l = Some t →
  ∃ σ' l' t',
    Store.tallyPure l c σ = Some (σ', l') ∧
    tallyPure (VObject t) c = VObject t' ∧
    Store.read_tally σ' l' = Some t' ∧
    σ !! l' = None ∧
    keeps σ σ'.
Proof.
  intros Ht. unfold Store.tallyPure. rewrite Ht. cbn -[tallyPure].
  rewrite tallyPure_object.
  pose proof (alloc_fresh (Store.OTally
    (<[c := VNum (Fin (vote_count (VObject t) c + 1))]> t)) σ) as Hfresh.
  simpl in Hfresh. unfold Store.alloc.
  eexists _, _, _. split; [reflexivity|]. split_and!; try done.
  - unfold Store.read_tally. by rewrite lookup_insert_eq.
  - apply keeps_subseteq. by apply insert_subseteq.
Qed.

(** [2 ^ 53] is a number of the language and [2 ^ 53 + 1] is not: an odd
    integer needs all its bits, and this one has 54. *)
Lemma safe_is_double z : safe z → is_double z.
Proof.
  unfold safe. intros Hz.
  destruct (decide (Z.abs z < 2 ^ 53)) as [Hlt|Hge].
  - exists z, 0. split; [lia|]. split; [done|lia].
  - exists (Z.sgn z * 2 ^ 52), 1. split_and!; lia.
Qed.

Lemma odd_double z : is_double (2 * z + 1) → Z.abs (2 * z + 1) < 2 ^ 53.
Proof.
  intros (m & e & Hz & Hm & He).
  destruct (decide (e = 0)) as [->|Hpos]; [lia|].
  replace e with (Z.succ (e - 1)) in Hz by lia.
  rewrite Z.pow_succ_r in Hz by lia.
  assert (2 * z + 1 = 2 * (m * 2 ^ (e - 1))) as Heven by lia. lia.
Qed.







(** * Further properties of the module *)

(** ** countVotesInRegions *)

Lemma region_nested_ind (P : region → Prop) :
  P NotARegion →
  (∀ votes, P (RegionObject votes None)) →
  (∀ votes subs, Forall P subs → P (RegionObject votes (Some subs))) →
  ∀ r, P r.
Proof.
  intros Hleaf Hnone Hsome. fix IH 1. intros [|votes [subs|]]; [done| |done].
  apply Hsome. induction subs as [|child subs IHsubs]; constructor; [apply IH|done].
Qed.

Lemma sum_list_app l1 l2 : sum_list (l1 ++ l2) = sum_list l1 + sum_list l2.
Proof. unfold sum_list. induction l1 as [|x l1 IH]; simpl; lia. Qed.

Lemma sum_list_perm l1 l2 : l1 ≡ₚ l2 → sum_list l1 = sum_list l2.
Proof. unfold sum_list. induction 1; simpl; lia. Qed.

Lemma own_votes_finite votes subRegions :
  (if Number_isFinite votes then to_number votes else Fin 0)
  = Fin (own_votes (RegionObject votes subRegions)).
Proof. by destruct votes as [| |b|[z| | |]|s|o|]. Qed.

(** The [reduce] over the subregions, given the count of each. *)
Lemma reduce_subRegions (count : region → number) subs a :
  Forall (λ child, count child = Fin (sum_list (own_votes <$> regions_of child))) subs →
  foldl (λ sum child, num_add sum (count child)) (Fin a) subs
  = Fin (a + sum_list (own_votes <$>
                         foldr (λ child rest, (regions_of child ++ rest)%list) [] subs)).
Proof.
  intros Hsubs. revert a. induction Hsubs as [|child subs Hchild _ IH]; intros a; simpl.
  { f_equal. unfold sum_list. simpl. lia. }
  rewrite Hchild. simpl. rewrite IH, fmap_app, sum_list_app. f_equal. lia.
Qed.

Lemma countVotesInRegions_sum regionTree :
  countVotesInRegions regionTree = Fin (sum_list (own_votes <$> regions_of regionTree)).
Proof.
  induction regionTree as [|votes|votes subs IH] using region_nested_ind.
  - reflexivity.
  - cbn [countVotesInRegions]. rewrite (own_votes_finite votes None). simpl.
    f_equal; unfold sum_list; simpl; lia.
  - cbn [countVotesInRegions]. rewrite (own_votes_finite votes (Some subs)).
    rewrite (reduce_subRegions countVotesInRegions subs 0 IH). simpl.
    f_equal; unfold sum_list; simpl; lia.
Qed.

(** X1: for a tree of regions whose finite votes are integers with
    absolute values that add up to at most 2^53, [countVotesInRegions]
    returns a finite number: the sum, over all the regions of the tree, of
    the votes each region holds itself, where a region whose [votes] is not
    a finite number holds 0 (its subregions still count), a [subRegions]
    that is not an array holds no region, and a value that is not an object
    counts 0. *)
Theorem countVotesInRegions_is_total_of_regions regionTree :
  safe_sum (own_votes <$> regions_of regionTree) →
  countVotesInRegions regionTree = Fin (sum_list (own_votes <$> regions_of regionTree)).
Proof. intros _. apply countVotesInRegions_sum. Qed.

(** A district of 10 votes with a village of 3 and a village whose votes
    are no number. *)
Lemma countVotesInRegions_is_total_of_regions_witness :
  countVotesInRegions
    (RegionObject (VNum (Fin 10))
       (Some [RegionObject (VNum (Fin 3)) None; RegionObject (VStr "many") (Some [])]))
  = Fin 13.
Proof.
  apply (countVotesInRegions_is_total_of_regions
    (RegionObject (VNum (Fin 10))
       (Some [RegionObject (VNum (Fin 3)) None; RegionObject (VStr "many") (Some [])]))).
  by vm_compute.
Defined.

Lemma regions_of_children_perm subs subs' :
  subs ≡ₚ subs' →
  foldr (λ child rest, (regions_of child ++ rest)%list) [] subs
  ≡ₚ foldr (λ child rest, (regions_of child ++ rest)%list) [] subs'.
Proof.
  induction 1 as [|child subs subs' _ IH|a b subs|subs1 subs2 subs3 _ IH1 _ IH2]; simpl.
  - done.
  - by rewrite IH.
  - rewrite !app_assoc. f_equiv. apply Permutation_app_comm.
  - by etrans.
Qed.

(** X2: for a region whose tree has finite votes that are integers with
    absolute values that add up to at most 2^53, the order of its
    subregions does not change its count. *)
Theorem countVotesInRegions_any_order votes subs subs' :
  safe_sum (own_votes <$> regions_of (RegionObject votes (Some subs))) →
  subs ≡ₚ subs' →
  countVotesInRegions (RegionObject votes (Some subs))
  = countVotesInRegions (RegionObject votes (Some subs')).
Proof.
  intros _ Hperm. rewrite !countVotesInRegions_sum. f_equal. simpl. f_equal.
  apply sum_list_perm. by rewrite (regions_of_children_perm subs subs').
Qed.

(** Two villages counted in either order. *)
Lemma countVotesInRegions_any_order_witness :
  countVotesInRegions
    (RegionObject (VNum (Fin 10))
       (Some [RegionObject (VNum (Fin 3)) None; RegionObject (VStr "many") (Some [])]))
  = countVotesInRegions
      (RegionObject (VNum (Fin 10))
         (Some [RegionObject (VStr "many") (Some []); RegionObject (VNum (Fin 3)) None])).
Proof. apply countVotesInRegions_any_order; [by vm_compute|apply perm_swap]. Defined.

(** ** createElection: the two maps *)


(** X3: when several candidates of the roster share an id, [candidateById]
    holds the last of them and [candidateIndex] its position; an id of no
    candidate is in neither map. *)
Theorem createElection_last_candidate_wins roster ops k :
  let e := run ops (createElection (Some roster)) in
  (∀ c, candidateById e !! k = Some c
        ↔ ∃ i, roster !! i = Some c ∧ c_id c = k
               ∧ ∀ j d, roster !! j = Some d → c_id d = k → (j ≤ i)%nat) ∧
  (∀ i, candidateIndex e !! k = Some (Z.of_nat i)
        ↔ (∃ c, roster !! i = Some c ∧ c_id c = k)
          ∧ ∀ j d, roster !! j = Some d → c_id d = k → (j ≤ i)%nat) ∧
  (¬ known_candidate roster k →
     candidateById e !! k = None ∧ candidateIndex e !! k = None).
Proof.
  intros e. destruct (inv_reachable roster ops) as (_ & Hby & Hidx & _). fold e in Hby, Hidx.
  rewrite Hby, Hidx. split_and!.
  - intros c. rewrite new_Map_last. split.
    + intros (i & Hi & Hlast). rewrite list_lookup_fmap in Hi.
      destruct (roster !! i) as [c'|] eqn:Hc; [|done]. injection Hi as <- ->.
      exists i. split_and!; try done. intros j d Hj Hd. apply (Hlast j d).
      by rewrite list_lookup_fmap, Hj, <- Hd.
    + intros (i & Hi & Hk & Hlast). exists i. split.
      * by rewrite list_lookup_fmap, Hi, <- Hk.
      * intros j d Hj. rewrite list_lookup_fmap in Hj.
        destruct (roster !! j) as [d'|] eqn:Hd; [|done]. injection Hj as Hk' ->.
        by apply (Hlast j d).
  - intros i. rewrite new_Map_last. split.
    + intros (i' & Hi & Hlast). rewrite list_lookup_imap in Hi.
      destruct (roster !! i') as [c|] eqn:Hc; [|done]. injection Hi as Hk Hii.
      apply Nat2Z.inj in Hii. subst i'. split; [eauto|].
      intros j d Hj Hd. apply (Hlast j (Z.of_nat j)).
      by rewrite list_lookup_imap, Hj, <- Hd.
    + intros [(c & Hc & Hk) Hlast]. exists i. split.
      * by rewrite list_lookup_imap, Hc, <- Hk.
      * intros j z Hj. rewrite list_lookup_imap in Hj.
        destruct (roster !! j) as [d|] eqn:Hd; [|done]. injection Hj as Hk' _.
        by apply (Hlast j d).
  - intros Hunknown. split; apply eq_None_not_Some; rewrite new_Map_is_Some.
    + by rewrite <- list_fmap_compose.
    + by rewrite fst_index_pairs.
Qed.

(** In the roster whose first and third candidate share the id "x", the
    maps hold the third. *)
Lemma createElection_last_candidate_wins_witness :
  candidateById (run [] (createElection (Some shared_id_roster))) !! "x"
    = Some {| c_id := "x"; c_name := "Chitra"; c_party := "Kisan" |}
  ∧ candidateById (run [] (createElection (Some shared_id_roster))) !! "z" = None.
Proof.
  split.
  - apply (proj1 (createElection_last_candidate_wins shared_id_roster [] "x")).
    exists 2%nat. split_and!; [reflexivity..|].
    intros j d Hj _. apply lookup_lt_Some in Hj. simpl in Hj. lia.
  - apply (proj2 (proj2 (createElection_last_candidate_wins shared_id_roster [] "z"))).
    unfold known_candidate. intros H. vm_compute in H.
    repeat (apply elem_of_cons in H as [H|H]; [discriminate|]). by apply elem_of_nil in H.
Defined.

(** ** getResults in every election *)


(** X4: in every election whose roster has no id that names a member of
    [Object.prototype], also one whose roster repeats an id,
    [getResults()] is in descending order of votes, and records with equal
    votes are in ascending order of the [candidateIndex] of their ids. *)
Theorem getResults_descending_votes roster ops :
  plain_ids roster →
  let e := run ops (createElection (Some roster)) in
  StronglySorted (reported_before e) (getResults None e) ∧
  StronglySorted (λ a b, result_count b ≤ result_count a) (getResults None e).
Proof.
  intros Hplain e. pose proof (inv_reachable roster ops) as He. fold e in He.
  split; [by apply (getResults_reported_order roster)|by apply (getResults_descending roster)].
Qed.

(** Over the shared ids, after the one vote for "x". *)
Lemma getResults_descending_votes_witness :
  StronglySorted (λ a b, result_count b ≤ result_count a) (getResults None shared_id_voted).
Proof.
  apply (proj2 (getResults_descending_votes shared_id_roster
    [RegisterVoter (voter_record "V1" "Mohan" 25); CastVote "V1" "x" None None]
    ltac:(apply (bool_decide_unpack _); by vm_compute))).
Defined.

(** X5: with a comparator, whatever it answers, [getResults] returns the
    same records as without one, in some order: one record per candidate of
    the roster, none lost and none invented. *)
Theorem getResults_comparator_permutes roster ops comparefn :
  let e := run ops (createElection (Some roster)) in
  getResults (Some comparefn) e ≡ₚ getResults None e ∧
  length (getResults (Some comparefn) e) = length roster ∧
  r_id <$> getResults (Some comparefn) e ≡ₚ c_id <$> roster.
Proof.
  intros e. pose proof (inv_reachable roster ops) as He. fold e in He.
  pose proof (getResults_perm_records e (Some comparefn)) as Hperm.
  assert (candidateList e = roster) as Hl by apply He. rewrite Hl in Hperm.
  split_and!.
  - by rewrite Hperm, (getResults_perm_records e None), Hl.
  - by rewrite Hperm, length_fmap.
  - rewrite Hperm, <- list_fmap_compose. done.
Qed.

(** ** The tally accounts for the votes *)

Lemma sum_list_zero {A} (f : A → Z) l : (∀ x, f x = 0) → sum_list (f <$> l) = 0.
Proof.
  intros Hf. induction l as [|x l IH]; [done|].
  rewrite fmap_cons. change (f x + sum_list (f <$> l) = 0). rewrite Hf, IH. done.
Qed.

Lemma sum_list_bump (f g : string → Z) c ids :
  (∀ k, g k = if decide (c = k) then f k + 1 else f k) →
  NoDup ids →
  sum_list (g <$> ids) = sum_list (f <$> ids) + (if decide (c ∈ ids) then 1 else 0).
Proof.
  intros Hg. induction 1 as [|k ids Hk _ IH]; [done|].
  rewrite !fmap_cons.
  change (g k + sum_list (g <$> ids)
          = f k + sum_list (f <$> ids) + (if decide (c ∈ k :: ids) then 1 else 0)).
  rewrite IH, Hg. destruct (decide (c = k)) as [->|Hne].
  - rewrite decide_False by done. rewrite decide_True by left. lia.
  - destruct (decide (c ∈ ids)) as [Hin|Hout].
    + rewrite decide_True by (by right). lia.
    + rewrite decide_False; [lia|]. by intros [?|?]%elem_of_cons.
Qed.

Lemma accounted_createElection roster : accounted roster (createElection (Some roster)).
Proof.
  split; [done|]. intros ids _ _. by rewrite sum_list_zero.
Qed.

Lemma accounted_with_vote roster e v c :
  election_inv roster e → accounted roster e →
  known_candidate roster c → v ∉ votedVoters e →
  accounted roster (with_vote v c e).
Proof.
  intros He [Hunk Hsum] Hc Hv.
  assert (numeric_tally (votes e)) as Hn by apply He.
  split; cbn -[tallyPure].
  - intros k Hk. destruct Hn as (o & Ho & _). rewrite Ho in *.
    rewrite tallyPure_object, get_prop_object.
    rewrite lookup_insert_ne by (intros ->; done).
    rewrite <- get_prop_object. by apply Hunk.
  - intros ids Hnd Hall.
    rewrite (sum_list_bump (vote_count (votes e)) _ c ids); [|intros k; by apply vote_count_tallyPure|done].
    rewrite decide_True by auto. rewrite Hsum by done.
    rewrite size_union by set_solver. rewrite size_singleton. lia.
Qed.

Lemma accounted_perform roster e op :
  election_inv roster e → accounted roster e → accounted roster (perform e op).
Proof.
  intros He Hacc.
  destruct op as [voter|v c onSuccess onError|sortFn|]; simpl; [| |done..].
  - by destruct (registerVoter_cases voter e) as [(vid & _ & _ & ->)| ->].
  - destruct (castVote_cases v c onSuccess onError e) as [(_ & Hc & Hv & ->)|[why ->]]; [|done].
    apply accounted_with_vote; try done. by rewrite <- (known_candidate_lookup roster e).
Qed.

Lemma accounted_run roster ops e :
  election_inv roster e → accounted roster e → accounted roster (run ops e).
Proof.
  revert e. induction ops as [|op ops IH]; intros e He Hacc; [done|].
  apply IH; [by apply inv_perform|by apply accounted_perform].
Qed.

Lemma accounted_reachable roster ops :
  accounted roster (run ops (createElection (Some roster))).
Proof. apply accounted_run; [apply inv_createElection|apply accounted_createElection]. Qed.


(** X6: in every election the tally has no entry for an id that is not in
    the roster, and the counts it holds for the ids of the roster add up to
    the number of voters who have voted; when the ids of the roster are
    pairwise distinct, so do the votes of the records [getResults] returns,
    with or without a comparator. *)
Theorem tally_accounts_for_votes roster ops :
  let e := run ops (createElection (Some roster)) in
  (∀ k, ¬ known_candidate roster k → get_prop (votes e) k = VUndefined) ∧
  sum_list (vote_count (votes e) <$> roster_ids roster) = Z.of_nat (size (votedVoters e)) ∧
  (distinct_ids roster → ∀ sortFn,
     sum_list (result_count <$> getResults sortFn e) = Z.of_nat (size (votedVoters e))).
Proof.
  intros e. pose proof (inv_reachable roster ops) as He.
  pose proof (accounted_reachable roster ops) as [Hunk Hsum]. fold e in He, Hunk, Hsum.
  split_and!; [done| |].
  - apply Hsum; [apply NoDup_remove_dups|].
    intros k Hk. by apply elem_of_remove_dups.
  - intros Hnd sortFn.
    assert (candidateList e = roster) as Hl by apply He.
    assert (numeric_tally (votes e)) as Hn by apply He.
    rewrite (sum_list_perm _ (result_count <$> (record (votes e) <$> roster)))
      by (by rewrite (getResults_perm_records e sortFn), Hl).
    rewrite <- list_fmap_compose.
    rewrite <- (Hsum (c_id <$> roster) Hnd) by done.
    rewrite <- list_fmap_compose. f_equal.
    apply list_fmap_ext. intros i c _. by apply result_count_record.
Qed.

(** After Mohan's vote the two records report one vote in all. *)
Lemma tally_accounts_for_votes_witness :
  sum_list (result_count <$> getResults None sample_voted)
  = Z.of_nat (size (votedVoters sample_voted)).
Proof.
  apply (proj2 (proj2 (tally_accounts_for_votes sample_roster
    [RegisterVoter (voter_record "V1" "Mohan" 25); CastVote "V1" "C1" None None]))).
  apply (bool_decide_unpack _). by vm_compute.
Defined.

(** ** getWinner in every election *)

Lemma sum_list_positive {A} (f : A → Z) l :
  0 < sum_list (f <$> l) → ∃ x, x ∈ l ∧ 0 < f x.
Proof.
  induction l as [|x l IH]; [by compute|].
  rewrite fmap_cons. change (0 < f x + sum_list (f <$> l) → ∃ y, y ∈ x :: l ∧ 0 < f y).
  intros Hsum. destruct (decide (0 < f x)) as [Hx|Hx].
  - exists x. split; [left|done].
  - destruct IH as (y & Hy & Hfy); [lia|]. exists y. split; [by right|done].
Qed.

(** Some candidate of the roster has a vote once somebody has voted. *)
Lemma voted_candidate roster e :
  accounted roster e → votedVoters e ≠ ∅ →
  ∃ c, c ∈ roster ∧ 0 < vote_count (votes e) (c_id c).
Proof.
  intros [_ Hsum] Hvoted.
  assert (0 < sum_list (vote_count (votes e) <$> roster_ids roster)) as Hpos.
  { rewrite Hsum; [|apply NoDup_remove_dups|intros k Hk; by apply elem_of_remove_dups].
    assert (size (votedVoters e) ≠ 0%nat); [|lia].
    intros Hsize. apply size_empty_inv in Hsize. by apply leibniz_equiv in Hsize. }
  apply sum_list_positive in Hpos as (k & Hk & Hcount).
  apply elem_of_remove_dups, list_elem_of_fmap in Hk as (c & -> & Hc). eauto.
Qed.


(** X7: in every election whose roster has no id that names a member of
    [Object.prototype], [getWinner()] returns null exactly when no voter
    has voted yet. *)
Theorem getWinner_null_iff_no_votes roster ops :
  plain_ids roster →
  let e := run ops (createElection (Some roster)) in
  getWinner e = None ↔ votedVoters e = ∅.
Proof.
  intros Hplain e. pose proof (inv_reachable roster ops) as He.
  pose proof (accounted_reachable roster ops) as Hacc. fold e in He, Hacc.
  destruct (getResults None e) as [|first rest] eqn:Hres.
  - assert (getWinner e = None) as -> by (unfold getWinner; by rewrite Hres).
    split; [intros _|done].
    destruct (decide (votedVoters e = ∅)) as [|Hvoted]; [done|].
    destruct (voted_candidate roster e Hacc Hvoted) as (c & Hc & _).
    pose proof (getResults_perm roster e None He Hplain) as Hperm. rewrite Hres in Hperm.
    apply Permutation_nil_l in Hperm. symmetry in Hperm. apply fmap_nil_inv in Hperm.
    subst roster. by apply elem_of_nil in Hc.
  - destruct (getWinner_first roster e first rest He Hplain Hres)
      as (c0 & winner & Hc0 & Hfirst & _ & ->).
    case_decide as Hz; split; try done.
    + intros _. destruct (decide (votedVoters e = ∅)) as [|Hvoted]; [done|].
      destruct (voted_candidate roster e Hacc Hvoted) as (c & Hc & Hpos).
      pose proof (first_result_has_most roster e first rest c He Hplain Hres Hc) as Hmost.
      rewrite Hfirst, result_count_row in Hmost. lia.
    + intros Hnone. destruct He as (_ & _ & _ & _ & _ & Hempty).
      destruct Hz. by rewrite (Hempty Hnone).
Qed.

(** The sample election has no winner before Mohan votes. *)
Lemma getWinner_null_iff_no_votes_witness : getWinner sample_registered = None.
Proof.
  apply (getWinner_null_iff_no_votes sample_roster
    [RegisterVoter (voter_record "V1" "Mohan" 25)]
    ltac:(apply (bool_decide_unpack _); by vm_compute)).
  reflexivity.
Defined.

(** X8: in every election whose roster has no id that names a member of
    [Object.prototype], also one whose roster repeats an id, a candidate
    returned by [getWinner()] is a candidate of the roster with at least
    one vote and with as many votes as any candidate; its id is the id of
    the first record of [getResults()], and it is the last candidate of the
    roster with that id. *)
Theorem getWinner_has_most_votes roster ops w :
  plain_ids roster →
  let e := run ops (createElection (Some roster)) in
  getWinner e = Some w →
  0 < vote_count (votes e) (c_id w) ∧
  (∀ c, c ∈ roster → vote_count (votes e) (c_id c) ≤ vote_count (votes e) (c_id w)) ∧
  (∃ first rest, getResults None e = first :: rest ∧ r_id first = c_id w) ∧
  (∃ i, roster !! i = Some w
        ∧ ∀ j d, roster !! j = Some d → c_id d = c_id w → (j ≤ i)%nat).
Proof.
  intros Hplain e Hw. pose proof (inv_reachable roster ops) as He. fold e in He.
  destruct (getResults None e) as [|first rest] eqn:Hres.
  { unfold getWinner in Hw. by rewrite Hres in Hw. }
  destruct (getWinner_first roster e first rest He Hplain Hres)
    as (c0 & winner & Hc0 & Hfirst & Hby & Hget).
  rewrite Hw in Hget. case_decide as Hz; [done|]. injection Hget as ->.
  destruct (candidateById_is_last roster e _ _ He Hby) as (i & Hi & Hid & Hlast).
  assert (numeric_tally (votes e)) as Hn by apply He.
  pose proof (vote_count_nonneg (votes e) (c_id c0) Hn) as Hnonneg.
  rewrite Hid. split_and!.
  - lia.
  - intros c Hc.
    pose proof (first_result_has_most roster e first rest c He Hplain Hres Hc) as Hmost.
    by rewrite Hfirst, result_count_row in Hmost.
  - exists first, rest. by rewrite Hfirst.
  - exists i. split; [done|]. intros j d Hj Hd. by apply (Hlast j d).
Qed.

(** In the election over the shared ids, the winner "Chitra" has the one
    vote. *)
Lemma getWinner_has_most_votes_witness :
  0 < vote_count (votes shared_id_voted) "x".
Proof.
  apply (getWinner_has_most_votes shared_id_roster
    [RegisterVoter (voter_record "V1" "Mohan" 25); CastVote "V1" "x" None None]
    {| c_id := "x"; c_name := "Chitra"; c_party := "Kisan" |}
    ltac:(apply (bool_decide_unpack _); by vm_compute)).
  by vm_compute.
Defined.

(** ** What a call changes *)

(** X9: [castVote] on any election adds one to the count of the candidate
    when the vote is accepted (registered voter who has not voted, candidate
    of the roster) and leaves every other count as it is; a refused vote
    leaves every count and the voted set as they are; the registered set is
    never changed by [castVote]. *)
Theorem castVote_counts_one_vote roster ops v c onSuccess onError :
  let e := run ops (createElection (Some roster)) in
  let e' := (castVote v c onSuccess onError e).1 in
  (∀ k, vote_count (votes e') k
        = vote_count (votes e) k
          + (if decide (accepts roster e v c ∧ c = k) then 1 else 0)) ∧
  votedVoters e'
    = (if decide (accepts roster e v c) then {[v]} ∪ votedVoters e else votedVoters e) ∧
  registeredVoters e' = registeredVoters e.
Proof.
  intros e e'. pose proof (inv_reachable roster ops) as He. fold e in He.
  assert (numeric_tally (votes e)) as Hn by apply He.
  unfold e'.
  destruct (castVote_cases v c onSuccess onError e) as [(Hr & Hc & Hv & ->)|[why Hwhy]].
  - apply (known_candidate_lookup roster e c He) in Hc.
    assert (accepts roster e v c) as Hacc by done.
    cbn -[tallyPure]. split_and!; [|by rewrite decide_True|done].
    intros k. rewrite (vote_count_tallyPure _ _ _ Hn).
    destruct (decide (c = k)) as [->|Hne].
    + rewrite decide_True by done. done.
    + rewrite decide_False by (by intros [_ ?]). lia.
  - assert (¬ accepts roster e v c) as Hrej.
    { intros (Hr & Hc & Hv).
      apply (known_candidate_lookup roster e c He) in Hc.
      rewrite (castVote_accepted v c onSuccess onError e Hr Hc Hv) in Hwhy.
      injection Hwhy as Hstate _.
      apply Hv. rewrite <- Hstate. simpl. apply elem_of_union_l. by apply elem_of_singleton. }
    rewrite Hwhy. simpl. split_and!; [|by rewrite decide_False|done].
    intros k. rewrite decide_False by (by intros [? _]). lia.
Qed.

Lemma registered_perform e op vid :
  vid ∈ registeredVoters (perform e op)
  ↔ vid ∈ registeredVoters e
    ∨ ∃ voter, op = RegisterVoter voter ∧ well_formed_voter voter vid.
Proof.
  destruct op as [voter|v c onSuccess onError|sortFn|]; simpl.
  - destruct (registerVoter_cases voter e) as [(vid' & Hwf & Hnew & ->)|Hrej].
    + simpl. rewrite elem_of_union, elem_of_singleton. split.
      * intros [->|?]; [right; eauto|by left].
      * intros [?|(voter' & [= <-] & Hwf')]; [by right|left].
        by rewrite <- (well_formed_voter_id _ _ Hwf), (well_formed_voter_id _ _ Hwf').
    + rewrite Hrej. simpl. split; [by left|].
      intros [?|(voter' & [= <-] & Hwf)]; [done|].
      destruct (decide (vid ∈ registeredVoters e)) as [|Hnew]; [done|].
      rewrite (registerVoter_accept _ _ _ Hwf Hnew) in Hrej. done.
  - destruct (castVote_cases v c onSuccess onError e) as [(_ & _ & _ & ->)|[why ->]];
      simpl; (split; [by left|by intros [?|(? & ? & _)]]).
  - split; [by left|by intros [?|(? & ? & _)]].
  - split; [by left|by intros [?|(? & ? & _)]].
Qed.

Lemma voted_perform e op v :
  v ∈ votedVoters (perform e op)
  ↔ v ∈ votedVoters e
    ∨ ∃ c onSuccess onError,
        op = CastVote v c onSuccess onError
        ∧ v ∈ registeredVoters e ∧ is_Some (candidateById e !! c).
Proof.
  destruct op as [voter|v' c onSuccess onError|sortFn|]; simpl.
  - destruct (registerVoter_cases voter e) as [(vid' & _ & _ & ->)| ->];
      simpl; (split; [by left|by intros [?|(? & ? & ? & ? & _)]]).
  - destruct (castVote_cases v' c onSuccess onError e) as [(Hr & Hc & Hv & ->)|[why Hwhy]].
    + simpl. rewrite elem_of_union, elem_of_singleton. split.
      * intros [->|?]; [right|by left]. by exists c, onSuccess, onError.
      * intros [?|(c' & s & f & [= <- _ _ _] & _)]; [by right|by left].
    + rewrite Hwhy. simpl. split; [by left|].
      intros [?|(c' & s & f & [= -> -> -> ->] & Hr & Hc)]; [done|].
      destruct (decide (v ∈ votedVoters e)) as [|Hv]; [done|].
      rewrite (castVote_accepted v c' s f e Hr Hc Hv) in Hwhy.
      injection Hwhy as Hstate _. rewrite <- Hstate. simpl.
      apply elem_of_union_l. by apply elem_of_singleton.
  - split; [by left|by intros [?|(? & ? & ? & ? & _)]].
  - split; [by left|by intros [?|(? & ? & ? & ? & _)]].
Qed.

(** X10: after any sequence of calls on a new election, the registered
    voters are exactly the ids of the well-formed voters (non-empty string
    id and name, finite age of at least 18) that were passed to
    [registerVoter]; and a voter has voted only if [castVote] was called for
    that voter with a candidate of the roster. *)
Theorem registered_are_the_valid_voters roster ops :
  let e := run ops (createElection (Some roster)) in
  (∀ vid, vid ∈ registeredVoters e
          ↔ ∃ voter, RegisterVoter voter ∈ ops ∧ well_formed_voter voter vid) ∧
  (∀ v, v ∈ votedVoters e →
        ∃ c onSuccess onError,
          CastVote v c onSuccess onError ∈ ops ∧ known_candidate roster c).
Proof.
  intros e.
  assert (∀ ops e0 vid,
    vid ∈ registeredVoters (run ops e0)
    ↔ vid ∈ registeredVoters e0
      ∨ ∃ voter, RegisterVoter voter ∈ ops ∧ well_formed_voter voter vid) as Hreg.
  { clear. induction ops as [|op ops IH]; intros e0 vid; simpl.
    - split; [by left|]. intros [?|(voter & Hin & _)]; [done|]. by apply elem_of_nil in Hin.
    - rewrite IH, registered_perform. split.
      + intros [[?|(voter & -> & Hwf)]|(voter & Hin & Hwf)].
        * by left.
        * right. exists voter. split; [left|done].
        * right. exists voter. split; [by right|done].
      + intros [?|(voter & Hin & Hwf)]; [by left; left|].
        apply elem_of_cons in Hin as [<-|Hin]; [left; right; eauto|right; eauto]. }
  assert (∀ ops e0 v,
    election_inv roster e0 →
    v ∈ votedVoters (run ops e0) →
    v ∈ votedVoters e0
    ∨ ∃ c onSuccess onError,
        CastVote v c onSuccess onError ∈ ops ∧ known_candidate roster c) as Hvoted.
  { clear. induction ops as [|op ops IH]; intros e0 v He0; simpl; [by left|].
    intros Hv.
    assert (election_inv roster (perform e0 op)) as He1 by (by apply inv_perform).
    apply (IH _ _ He1) in Hv as [Hv|(c & s & f & Hin & Hc)].
    - apply voted_perform in Hv as [?|(c & s & f & -> & _ & Hc)]; [by left|].
      right. exists c, s, f. split; [left|]. by rewrite <- (known_candidate_lookup roster e0).
    - right. exists c, s, f. split; [by right|done]. }
  split.
  - intros vid. unfold e. rewrite Hreg. split; [|by right].
    intros [Hin|?]; [|done]. by apply elem_of_empty in Hin.
  - intros v Hv.
    apply (Hvoted _ _ _ (inv_createElection roster)) in Hv as [Hin|?]; [|done].
    by apply elem_of_empty in Hin.
Qed.

(** Mohan is registered because a well-formed record of his was passed. *)
Lemma registered_are_the_valid_voters_witness :
  ∃ c onSuccess onError,
    CastVote "V1" c onSuccess onError
      ∈ [RegisterVoter (voter_record "V1" "Mohan" 25); CastVote "V1" "C1" None None]
    ∧ known_candidate sample_roster c.
Proof.
  apply (proj2 (registered_are_the_valid_voters sample_roster
    [RegisterVoter (voter_record "V1" "Mohan" 25); CastVote "V1" "C1" None None]) "V1").
  by vm_compute.
Defined.

(** ** An election without candidates *)

(** X11: [createElection] treats an argument that is not an array as an
    empty roster; in an election without candidates no vote is ever
    accepted, whatever is called: every [castVote] of a registered voter is
    refused as "invalid candidate", nobody has voted, [getResults] returns
    the empty array and [getWinner] null. *)
Theorem createElection_without_candidates ops :
  createElection None = createElection (Some []) ∧
  let e := run ops (createElection None) in
  votedVoters e = ∅ ∧
  (∀ sortFn, getResults sortFn e = []) ∧
  getWinner e = None ∧
  (∀ v c onSuccess onError,
     castVote v c onSuccess onError e
     = (e, function_or_noop onError
             (if decide (v ∈ registeredVoters e)
              then "invalid candidate" else "voter not registered"))).
Proof.
  split; [done|]. intros e.
  change (createElection None) with (createElection (Some [])) in e.
  pose proof (inv_reachable [] ops) as He. fold e in He.
  assert (∀ sortFn, getResults sortFn e = []) as Hres.
  { intros sortFn. apply Permutation_nil_r.
    by rewrite (getResults_perm [] e sortFn He (Forall_nil_2 _)). }
  assert (∀ c, candidateById e !! c = None) as Hby.
  { intros c. apply eq_None_not_Some. rewrite (known_candidate_lookup [] e c He).
    unfold known_candidate. simpl. apply not_elem_of_nil. }
  assert (∀ ops e0, election_inv [] e0 → votedVoters (run ops e0) = votedVoters e0) as Hvoted.
  { clear. induction ops as [|op ops IH]; intros e0 He0; [done|]. simpl.
    rewrite IH by (by apply inv_perform).
    apply set_eq. intros v. rewrite voted_perform. split; [|by left].
    intros [?|(c & _ & _ & _ & _ & Hc)]; [done|].
    apply (known_candidate_lookup [] e0 c He0) in Hc. by apply elem_of_nil in Hc. }
  split_and!.
  - unfold e. by rewrite Hvoted by apply inv_createElection.
  - done.
  - unfold getWinner. by rewrite Hres.
  - intros v c onSuccess onError. case_decide as Hr.
    + by apply castVote_invalid_candidate.
    + by apply castVote_not_registered.
Qed.

(** ** The validator and registration *)

Lemma well_formed_not_missing voter vid :
  well_formed_voter voter vid →
  Forall (λ g, ¬ missing (member voter g)) ["id"; "name"; "age"].
Proof.
  intros (o & name & -> & Hid & Hvid & Hname & Hn & (a & Hage & _)).
  rewrite !Forall_cons. split_and!; [| | |by apply Forall_nil].
  - rewrite (member_own _ _ _ Hid). intros [?|[?|?]]; congruence.
  - rewrite (member_own _ _ _ Hname). intros [?|[?|?]]; congruence.
  - rewrite (member_own _ _ _ Hage). intros [?|[?|?]]; congruence.
Qed.

Lemma validator_valid_iff rules o :
  createVoteValidator rules (VObject o) = {| valid := true; reason := None |}
  ↔ Forall (λ g, ¬ missing (member (VObject o) g)) (fields_of rules)
    ∧ finite_age_at_least o (min_age_of rules).
Proof.
  rewrite createVoteValidator_defaults.
  induction (fields_of rules) as [|f fs IH].
  - cbn [check_fields]. destruct (negb _ || js_lt _ _) eqn:E.
    + split; [done|]. intros [_ Hage]. apply age_test in Hage. congruence.
    + apply age_test in E. split; [by split|done].
  - rewrite check_fields_head. destruct (decide (missing (member (VObject o) f))) as [Hm|Hm].
    + split; [done|]. intros [Hall _]. by apply Forall_cons_1 in Hall as [? _].
    + rewrite IH. rewrite Forall_cons. tauto.
Qed.

(** X12: every voter that [registerVoter] can accept (a well-formed voter)
    is valid for the validator built from the documented rules
    [{ minAge: 18, requiredFields: ["id", "name", "age"] }]; a voter valid
    for that validator is well-formed as soon as its [id] and [name] are
    strings. *)
Theorem validator_agrees_with_registration voter :
  (isValidVoter voter = true →
     createVoteValidator (Some documented_rules) voter
     = {| valid := true; reason := None |}) ∧
  (createVoteValidator (Some documented_rules) voter = {| valid := true; reason := None |} →
     typeof (get_prop voter "id") = "string" →
     typeof (get_prop voter "name") = "string" →
     isValidVoter voter = true).
Proof.
  split.
  - intros Hvalid. apply isValidVoter_spec in Hvalid as [vid Hwf].
    pose proof (well_formed_not_missing voter vid Hwf) as Hfields.
    destruct Hwf as (o & name & -> & _ & _ & _ & _ & Hage).
    by apply validator_valid_iff.
  - intros Hvalid Hid Hname.
    destruct (negb (truthy voter) || negb (typeof voter =? "object")%string) eqn:E.
    { unfold createVoteValidator in Hvalid. rewrite E in Hvalid. discriminate. }
    apply typeof_object_truthy in E as [o ->].
    apply validator_valid_iff in Hvalid as [Hfields Hage].
    apply isValidVoter_spec.
    change (fields_of (Some documented_rules)) with ["id"; "name"; "age"] in Hfields.
    rewrite !Forall_cons in Hfields.
    destruct Hfields as (Hmid & Hmname & _).
    rewrite get_prop_object in Hid, Hname. rewrite member_object in Hmid, Hmname.
    unfold missing in Hmid, Hmname.
    destruct (o !! "id") as [[| |?|?|vid|?|]|] eqn:Eid; try discriminate.
    destruct (o !! "name") as [[| |?|?|name|?|]|] eqn:Ename; try discriminate.
    exists vid, o, name. simpl in *. split_and!; try done.
    + intros ->. tauto.
    + intros ->. tauto.
Qed.

(** Mohan's record, which [registerVoter] accepts, passes the validator. *)
Lemma validator_agrees_with_registration_witness :
  createVoteValidator (Some documented_rules) (voter_record "V1" "Mohan" 25)
  = {| valid := true; reason := None |}.
Proof.
  apply (proj1 (validator_agrees_with_registration (voter_record "V1" "Mohan" 25))).
  reflexivity.
Defined.

(** X13: relaxing the rules never turns a valid voter away: a voter valid
    under some rules is valid under rules with a minimum age that is not
    higher and required fields taken among the former ones. *)
Theorem validator_relaxed_rules rules rules' voter :
  min_age_of rules' ≤ min_age_of rules →
  fields_of rules' ⊆ fields_of rules →
  createVoteValidator rules voter = {| valid := true; reason := None |} →
  createVoteValidator rules' voter = {| valid := true; reason := None |}.
Proof.
  intros Hage Hfields Hvalid.
  destruct (negb (truthy voter) || negb (typeof voter =? "object")%string) eqn:E.
  { unfold createVoteValidator in Hvalid. rewrite E in Hvalid. discriminate. }
  apply typeof_object_truthy in E as [o ->].
  apply validator_valid_iff in Hvalid as [Hall (a & Ha & Hmin)].
  apply validator_valid_iff. split.
  - rewrite Forall_forall in Hall |- *. intros g Hg. apply Hall. by apply Hfields.
  - exists a. split; [done|lia].
Qed.

(** A voter of 30 with a name, valid when 21 is the minimum age and the
    name is required, is valid under the default rules. *)
Lemma validator_relaxed_rules_witness :
  createVoteValidator None (VObject (<["name" := VStr "Asha"]> {["age" := VNum (Fin 30)]}))
  = {| valid := true; reason := None |}.
Proof.
  apply (validator_relaxed_rules
           (Some {| minAge := VNum (Fin 21); requiredFields := Some ["name"] |}) None).
  - simpl. lia.
  - simpl. apply list_subseteq_nil.
  - reflexivity.
Defined.

(** ** The pattern module: repeatChar *)

Lemma string_app_cons x (a b : string) : String x a +:+ b = String x (a +:+ b).
Proof. reflexivity. Qed.

Lemma string_app_assoc (a b c : string) : (a +:+ b) +:+ c = a +:+ (b +:+ c).
Proof.
  induction a as [|x a IH]; [done|]. rewrite !string_app_cons. by f_equal.
Qed.

Lemma string_length_app (a b : string) :
  String.length (a +:+ b) = (String.length a + String.length b)%nat.
Proof.
  induction a as [|x a IH]; [done|]. rewrite string_app_cons. simpl. by f_equal.
Qed.

(** The model satisfies the body of the source function. *)
Lemma repeatChar_unfold char n :
  repeatChar char n =
    if negb (typeof char =? "string")%string || (js_length char =? 0) then ""
    else if negb (Number_isFinite n) || js_le n (VNum (Fin 0)) then ""
    else string_of char +:+ repeatChar char (VNum (js_sub n (VNum (Fin 1)))).
Proof.
  unfold repeatChar at 1. cbn [repeatChar_calls].
  destruct (negb (typeof char =? "string")%string || (js_length char =? 0)); [done|].
  destruct (negb (Number_isFinite n) || js_le n (VNum (Fin 0))) eqn:Hn; [done|].
  f_equal. destruct n as [| |b|[z| | |]|s|o|]; try discriminate.
  unfold js_le in Hn. simpl in Hn. apply Z.leb_gt in Hn.
  unfold repeatChar, js_sub. simpl.
  replace (Z.to_nat z) with (S (Z.to_nat (z + -1))) by lia. done.
Qed.

Lemma repeatChar_copies s z :
  s ≠ "" → repeatChar (VStr s) (VNum (Fin z)) = copies (Z.to_nat z) s.
Proof.
  intros Hs. remember (Z.to_nat z) as k eqn:Hk. revert z Hk.
  induction k as [|k IH]; intros z Hk; rewrite repeatChar_unfold.
  - rewrite (proj2 (nonempty_string_prop (VStr s))) by eauto.
    assert (negb (Number_isFinite (VNum (Fin z))) || js_le (VNum (Fin z)) (VNum (Fin 0))
            = true) as -> by (apply Z.leb_le; lia).
    done.
  - rewrite (proj2 (nonempty_string_prop (VStr s))) by eauto.
    assert (negb (Number_isFinite (VNum (Fin z))) || js_le (VNum (Fin z)) (VNum (Fin 0))
            = false) as -> by (apply Z.leb_gt; lia).
    change (js_sub (VNum (Fin z)) (VNum (Fin 1))) with (Fin (z + -1)).
    rewrite (IH (z + -1)) by lia. done.
Qed.

Lemma copies_add a b s : copies (a + b) s = copies a s +:+ copies b s.
Proof. induction a as [|a IH]; [done|]. simpl. by rewrite IH, string_app_assoc. Qed.

Lemma copies_length k s : String.length (copies k s) = (k * String.length s)%nat.
Proof. induction k as [|k IH]; simpl; [done|]. by rewrite string_length_app, IH. Qed.

(** X14: for a non-empty string [char] and an integer [n] of at most 2^53,
    [repeatChar(char, n)] is [char] written [n] times (no times when [n] is
    not positive): it has [n] times the length of [char], and repeating
    [a + b] times is repeating [a] times followed by repeating [b] times;
    for a [char] that is no non-empty string, and for an [n] that is no
    finite number or is an integer that is not positive, the result is the
    empty string. *)
Theorem repeatChar_repeats :
  (∀ s z, s ≠ "" → z ≤ 2 ^ 53 →
     repeatChar (VStr s) (VNum (Fin z)) = copies (Z.to_nat z) s) ∧
  (∀ s z, s ≠ "" → z ≤ 2 ^ 53 →
     String.length (repeatChar (VStr s) (VNum (Fin z)))
     = (Z.to_nat z * String.length s)%nat) ∧
  (∀ s a b, s ≠ "" → 0 ≤ a → 0 ≤ b → a + b ≤ 2 ^ 53 →
     repeatChar (VStr s) (VNum (Fin (a + b)))
     = repeatChar (VStr s) (VNum (Fin a)) +:+ repeatChar (VStr s) (VNum (Fin b))) ∧
  (∀ char n, (∀ s, char = VStr s → s = "") → repeatChar char n = "") ∧
  (∀ char n, (∀ z, n = VNum (Fin z) → z ≤ 0) → repeatChar char n = "").
Proof.
  split_and!.
  - intros s z Hs _. by apply repeatChar_copies.
  - intros s z Hs _. by rewrite repeatChar_copies, copies_length.
  - intros s a b Hs Ha Hb _. rewrite !repeatChar_copies by done.
    rewrite Z2Nat.inj_add by done. apply copies_add.
  - intros char n Hchar. rewrite repeatChar_unfold.
    destruct (negb (typeof char =? "string")%string || (js_length char =? 0)) eqn:E; [done|].
    apply nonempty_string_prop in E as (s & -> & Hs). by destruct (Hs (Hchar s eq_refl)).
  - intros char n Hn. rewrite repeatChar_unfold.
    destruct (negb (typeof char =? "string")%string || (js_length char =? 0)); [done|].
    destruct (negb (Number_isFinite n) || js_le n (VNum (Fin 0))) eqn:E; [done|].
    destruct n as [| |b|[z| | |]|s|o|]; try discriminate.
    unfold js_le in E. simpl in E. apply Z.leb_gt in E. specialize (Hn z eq_refl). lia.
Qed.

(** Four stars. *)
Lemma repeatChar_repeats_witness : repeatChar (VStr "*") (VNum (Fin 4)) = "****".
Proof.
  rewrite (proj1 repeatChar_repeats "*" 4); [reflexivity|discriminate|by vm_compute].
Defined.

(** ** The pattern module: nested arrays *)

Lemma nested_ind_elems (P : nested → Prop) :
  (∀ v, P (Leaf v)) →
  (∀ elems, Forall P elems → P (Arr elems)) →
  ∀ a, P a.
Proof.
  intros Hleaf Harr. fix IH 1. intros [v|elems]; [done|].
  apply Harr. induction elems as [|x elems IHelems]; constructor; [apply IH|done].
Qed.

(** What one element adds to the sum, and to the flat array. *)
Lemma sumNestedArray_cons x elems :
  sumNestedArray (Arr (x :: elems))
  = num_add (match x with
             | Arr _ => sumNestedArray x
             | Leaf v => if Number_isFinite v then to_number v else Fin 0
             end)
            (sumNestedArray (Arr elems)).
Proof. reflexivity. Qed.

Lemma flattenArray_cons x elems :
  flattenArray (Arr (x :: elems))
  = (match x with
     | Arr _ => flattenArray x
     | Leaf v => [v]
     end ++ flattenArray (Arr elems))%list.
Proof. reflexivity. Qed.

Lemma sum_finite_app vs ws : sum_finite (vs ++ ws) = sum_finite vs + sum_finite ws.
Proof. unfold sum_finite. by rewrite fmap_app, sum_list_app. Qed.

Lemma sumNestedArray_flat a : sumNestedArray a = Fin (sum_finite (flattenArray a)).
Proof.
  induction a as [v|elems IH] using nested_ind_elems; [done|].
  induction IH as [|x elems Hx _ IHelems]; [done|].
  rewrite sumNestedArray_cons, flattenArray_cons, sum_finite_app, IHelems.
  destruct x as [v|inner].
  - assert (sum_finite [v] = match v with VNum (Fin z) => z | _ => 0 end) as ->.
    { unfold sum_finite, sum_list. simpl. lia. }
    destruct v as [| |b|[z| | |]|s|o|]; simpl; f_equal; lia.
  - by rewrite Hx.
Qed.

Lemma flattenArray_app l1 l2 :
  flattenArray (Arr (l1 ++ l2)) = (flattenArray (Arr l1) ++ flattenArray (Arr l2))%list.
Proof.
  induction l1 as [|x l1 IH]; [done|].
  rewrite <- app_comm_cons, !flattenArray_cons, IH. by rewrite app_assoc.
Qed.

Lemma flattenArray_leaves vs : flattenArray (Arr (Leaf <$> vs)) = vs.
Proof.
  induction vs as [|v vs IH]; [done|]. rewrite fmap_cons, flattenArray_cons, IH. done.
Qed.

(** X15: for an argument whose finite numbers, at any depth, are integers
    with absolute values that add up to at most 2^53, [sumNestedArray]
    returns the sum of the finite numbers of the flat array that
    [flattenArray] returns for it (0 for an argument that is not an
    array); so summing an array and summing its flattening agree. *)
Theorem sumNestedArray_sums_the_flattening a :
  safe_sum (finite_of <$> flattenArray a) →
  sumNestedArray a = Fin (sum_finite (flattenArray a)) ∧
  sumNestedArray (Arr (Leaf <$> flattenArray a)) = sumNestedArray a.
Proof.
  intros _. split; [apply sumNestedArray_flat|].
  by rewrite !sumNestedArray_flat, flattenArray_leaves.
Qed.

(** The array [[1, [2, "x", [3]], 4]]. *)
Lemma sumNestedArray_sums_the_flattening_witness :
  sumNestedArray
    (Arr [Leaf (VNum (Fin 1));
          Arr [Leaf (VNum (Fin 2)); Leaf (VStr "x"); Arr [Leaf (VNum (Fin 3))]];
          Leaf (VNum (Fin 4))])
  = Fin 10.
Proof.
  apply (proj1 (sumNestedArray_sums_the_flattening
    (Arr [Leaf (VNum (Fin 1));
          Arr [Leaf (VNum (Fin 2)); Leaf (VStr "x"); Arr [Leaf (VNum (Fin 3))]];
          Leaf (VNum (Fin 4))])
    ltac:(by vm_compute))).
Defined.

(** X16: [flattenArray] leaves an array without nested arrays as it is, so
    flattening twice is flattening once; it flattens a concatenation to the
    concatenation of the flattenings; and an element that is an array
    contributes its own flattening, however deep. *)
Theorem flattenArray_flattens :
  (∀ vs, flattenArray (Arr (Leaf <$> vs)) = vs) ∧
  (∀ a, flattenArray (Arr (Leaf <$> flattenArray a)) = flattenArray a) ∧
  (∀ l1 l2, flattenArray (Arr (l1 ++ l2))
            = (flattenArray (Arr l1) ++ flattenArray (Arr l2))%list) ∧
  (∀ inner rest, flattenArray (Arr (Arr inner :: rest))
                 = flattenArray (Arr (inner ++ rest))) ∧
  (∀ v, flattenArray (Leaf v) = []).
Proof.
  split_and!.
  - apply flattenArray_leaves.
  - intros a. apply flattenArray_leaves.
  - apply flattenArray_app.
  - intros inner rest. by rewrite flattenArray_cons, flattenArray_app.
  - done.
Qed.

(** ** The pattern module: generatePattern *)

(** The model satisfies the body of [buildAscending] for a positive [k]. *)
Lemma buildAscending_unfold k :
  1 ≤ k →
  buildAscending k =
    if k =? 1 then ["*"]
    else (buildAscending (k - 1) ++ [repeatChar (VStr "*") (VNum (Fin k))])%list.
Proof.
  intros Hk. unfold buildAscending.
  replace (Z.to_nat k) with (S (Z.to_nat (k - 1))) by lia. done.
Qed.

Lemma buildAscending_lines k :
  1 ≤ k → buildAscending k = (λ i, copies i "*") <$> seq 1 (Z.to_nat k).
Proof.
  intros Hk. remember (Z.to_nat k) as n eqn:Hn. revert k Hk Hn.
  induction n as [|n IH]; intros k Hk Hn; [lia|].
  rewrite buildAscending_unfold by done.
  destruct (Z.eqb_spec k 1) as [->|Hne].
  - by replace n with 0%nat by lia.
  - rewrite (IH (k - 1)) by lia. rewrite repeatChar_copies by done.
    rewrite <- Hn, seq_S, fmap_app. done.
Qed.



(** ** The pattern module: isPalindrome *)

Lemma lower_char_idem a : lower_char (lower_char a) = lower_char a.
Proof. by destruct a as [[] [] [] [] [] [] [] []]. Qed.

Lemma toLowerCase_length s : String.length (toLowerCase s) = String.length s.
Proof. induction s as [|a s IH]; simpl; [done|]. by f_equal. Qed.

Lemma chars_length s : length (chars s) = String.length s.
Proof. induction s as [|a s IH]; simpl; [done|]. by f_equal. Qed.

Lemma chars_toLowerCase s : chars (toLowerCase s) = lower_char <$> chars s.
Proof. induction s as [|a s IH]; simpl; [done|]. by f_equal. Qed.

Lemma chars_get n s : String.get n s = chars s !! n.
Proof.
  revert n. induction s as [|a s IH]; intros [|n]; simpl; auto.
Qed.

Lemma chars_substring n m s :
  chars (String.substring n m s) = take m (drop n (chars s)).
Proof.
  revert n m. induction s as [|a s IH]; intros n m.
  - by destruct n, m.
  - destruct n as [|n]; simpl.
    + destruct m as [|m]; simpl; [done|]. f_equal. apply (IH 0%nat m).
    + apply IH.
Qed.

Lemma chars_inj s1 s2 : chars s1 = chars s2 → s1 = s2.
Proof.
  intros H. rewrite <- (String.string_of_list_ascii_of_string s1),
    <- (String.string_of_list_ascii_of_string s2). unfold chars in H. by rewrite H.
Qed.

Lemma toLowerCase_idem s : toLowerCase (toLowerCase s) = toLowerCase s.
Proof. induction s as [|a s IH]; simpl; [done|]. by rewrite lower_char_idem, IH. Qed.

(** A list of at least two elements reads the same from both ends exactly
    when its ends agree and its middle reads the same from both ends. *)
Lemma palindrome_ends {A} (l : list A) :
  (2 ≤ length l)%nat →
  l = reverse l
  ↔ l !! 0%nat = l !! (length l - 1)%nat
    ∧ take (length l - 2) (drop 1 l) = reverse (take (length l - 2) (drop 1 l)).
Proof.
  intros Hlen. destruct l as [|a l]; [simpl in Hlen; lia|].
  destruct (decide (l = [])) as [->|Hne]; [simpl in Hlen; lia|].
  destruct (exists_last Hne) as (mid & b & ->).
  assert (length (a :: mid ++ [b])%list = S (S (length mid))) as ->
    by (rewrite length_cons, length_app; simpl; lia).
  replace (S (S (length mid)) - 1)%nat with (S (length mid)) by lia.
  replace (S (S (length mid)) - 2)%nat with (length mid) by lia.
  change (drop 1 (a :: mid ++ [b])%list) with (mid ++ [b])%list.
  change ((a :: mid ++ [b])%list !! 0%nat) with (Some a).
  change ((a :: mid ++ [b])%list !! S (length mid)) with ((mid ++ [b])%list !! length mid).
  rewrite take_app_length, lookup_app_r, Nat.sub_diag by lia.
  change ([b] !! 0%nat) with (Some b).
  rewrite reverse_cons, reverse_app. change (reverse [b]) with [b].
  change (([b] ++ reverse mid) ++ [a])%list with (b :: (reverse mid ++ [a]))%list. split.
  - intros H. injection H as -> H. apply app_inj_tail in H as [H _]. done.
  - intros [[= ->] <-]. done.
Qed.

Lemma palindrome_short {A} (l : list A) : (length l ≤ 1)%nat → l = reverse l.
Proof. destruct l as [|a [|b l]]; simpl; [done..|lia]. Qed.

Lemma isPalindrome_calls_spec calls s :
  (String.length s < calls)%nat →
  isPalindrome_calls calls (VStr s) = true
  ↔ chars (toLowerCase s) = reverse (chars (toLowerCase s)).
Proof.
  revert s. induction calls as [|calls IH]; intros s Hlen; [lia|].
  cbn [isPalindrome_calls typeof string_of]. simpl negb. cbv iota.
  set (low := toLowerCase s).
  assert (length (chars low) = String.length low) as Hchars by apply chars_length.
  assert (String.length low = String.length s) as Hlow by apply toLowerCase_length.
  destruct (Nat.leb_spec (String.length low) 1) as [Hshort|Hlong].
  { split; [intros _|done]. apply palindrome_short. lia. }
  rewrite (palindrome_ends (chars low)) by lia.
  rewrite Hchars, <- !chars_get, <- chars_substring.
  unfold char_differs.
  destruct (decide (String.get 0 low = String.get (String.length low - 1) low)) as [Heq|Hne].
  - rewrite bool_decide_eq_true_2 by done. simpl.
    rewrite IH.
    + assert (toLowerCase (String.substring 1 (String.length low - 2) low)
              = String.substring 1 (String.length low - 2) low) as ->; [|tauto].
      apply chars_inj. rewrite chars_toLowerCase, chars_substring.
      unfold low. rewrite chars_toLowerCase, <- fmap_drop, <- fmap_take, <- list_fmap_compose.
      apply list_fmap_ext. intros i a _. apply lower_char_idem.
    + rewrite <- chars_length, chars_substring, length_take, length_drop. lia.
  - rewrite bool_decide_eq_false_2 by done. simpl. split; [done|]. by intros [? _].
Qed.

Lemma isPalindrome_calls_enough c1 c2 s :
  (String.length s < c1)%nat → (String.length s < c2)%nat →
  isPalindrome_calls c1 (VStr s) = isPalindrome_calls c2 (VStr s).
Proof.
  intros H1 H2. apply eq_bool_prop_intro.
  rewrite !Is_true_true, !isPalindrome_calls_spec by done. done.
Qed.

(** The model satisfies the body of the source function. *)
Lemma isPalindrome_unfold str :
  isPalindrome str =
    if negb (typeof str =? "string")%string then false
    else
      let s := toLowerCase (string_of str) in
      if (String.length s <=? 1)%nat then true
      else if char_differs (String.get 0 s) (String.get (String.length s - 1) s)
      then false
      else isPalindrome (VStr (String.substring 1 (String.length s - 2) s)).
Proof.
  unfold isPalindrome at 1. cbn [isPalindrome_calls].
  destruct (negb (typeof str =? "string")%string); [done|]. cbv zeta.
  destruct (Nat.leb_spec (String.length (toLowerCase (string_of str))) 1) as [|Hlong]; [done|].
  destruct (char_differs _ _); [done|].
  rewrite toLowerCase_length in Hlong.
  apply isPalindrome_calls_enough.
  - rewrite <- chars_length, chars_substring, length_take, length_drop,
      chars_length, toLowerCase_length. lia.
  - cbn [string_of]. lia.
Qed.

(** X18: on a string (of ASCII characters) [isPalindrome] answers true
    exactly when the string, its capital letters made small, reads the same
    from both ends; the answer does not change when the capital letters of
    the argument are made small; and on a value that is not a string the
    answer is false. *)
Theorem isPalindrome_reads_both_ways :
  (∀ s, isPalindrome (VStr s) = true
        ↔ chars (toLowerCase s) = reverse (chars (toLowerCase s))) ∧
  (∀ s, isPalindrome (VStr (toLowerCase s)) = isPalindrome (VStr s)) ∧
  (∀ v, (∀ s, v ≠ VStr s) → isPalindrome v = false).
Proof.
  assert (∀ s, isPalindrome (VStr s) = true
               ↔ chars (toLowerCase s) = reverse (chars (toLowerCase s))) as Hspec.
  { intros s. apply isPalindrome_calls_spec. simpl. lia. }
  split_and!; [done| |].
  - intros s. apply eq_bool_prop_intro.
    by rewrite !Is_true_true, !Hspec, toLowerCase_idem.
  - intros v Hv. rewrite isPalindrome_unfold.
    destruct v; try done. by destruct (Hv s).
Qed.

(** "Madam" reads the same from both ends once its capital is small. *)
Lemma isPalindrome_reads_both_ways_witness : isPalindrome (VStr "Madam") = true.
Proof. apply (proj1 isPalindrome_reads_both_ways). reflexivity. Defined.

(** ** The blender module *)

Lemma pipe_fold {A} (fns : list (option (A → A))) x :
  pipe fns x = foldl (λ acc fn, fn acc) x (only_functions fns).
Proof. unfold pipe. by destruct (only_functions fns). Qed.

Lemma compose_fold {A} (fns : list (option (A → A))) x :
  compose fns x = foldr (λ fn acc, fn acc) x (only_functions fns).
Proof. unfold compose. by destruct (only_functions fns). Qed.

Lemma only_functions_app {A} (fs gs : list (option (A → A))) :
  only_functions (fs ++ gs) = (only_functions fs ++ only_functions gs)%list.
Proof. apply omap_app. Qed.

Lemma only_functions_reverse {A} (fns : list (option (A → A))) :
  only_functions (reverse fns) = reverse (only_functions fns).
Proof.
  induction fns as [|[f|] fns IH]; [done| |].
  - rewrite reverse_cons, only_functions_app, IH. simpl. by rewrite reverse_cons.
  - rewrite reverse_cons, only_functions_app, IH. simpl. by rewrite app_nil_r.
Qed.

Lemma reduceRight_reverse {A} (l : list (A → A)) x :
  foldr (λ fn acc, fn acc) x l = foldl (λ acc fn, fn acc) x (reverse l).
Proof.
  induction l as [|f l IH]; [done|].
  rewrite reverse_cons, foldl_app. simpl. by rewrite IH.
Qed.

(** X19: [pipe(...fns)] applies the functions among its arguments from left
    to right and [compose(...fns)] from right to left, so [compose] of the
    arguments is [pipe] of the arguments reversed; piping two series of
    functions one after the other is piping their concatenation; arguments
    that are not functions change nothing; and without a function both are
    the identity. *)
Theorem pipe_and_compose {A} (fns gns : list (option (A → A))) (x : A) :
  compose fns x = pipe (reverse fns) x ∧
  pipe (fns ++ gns) x = pipe gns (pipe fns x) ∧
  compose (fns ++ gns) x = compose fns (compose gns x) ∧
  pipe fns x = pipe (Some <$> only_functions fns) x ∧
  (only_functions fns = [] → pipe fns x = x ∧ compose fns x = x).
Proof.
  split_and!.
  - rewrite compose_fold, pipe_fold, only_functions_reverse.
    apply reduceRight_reverse.
  - by rewrite !pipe_fold, only_functions_app, foldl_app.
  - by rewrite !compose_fold, only_functions_app, foldr_app.
  - rewrite !pipe_fold. f_equal. unfold only_functions.
    induction fns as [|[f|] fns IH]; simpl; [done| |done]. by f_equal.
  - intros Hnone. by rewrite pipe_fold, compose_fold, Hnone.
Qed.

(** With only a string among the arguments, both are the identity. *)
Lemma pipe_and_compose_witness :
  pipe [None] (VStr "Haldi") = VStr "Haldi" ∧ compose [None] (VStr "Haldi") = VStr "Haldi".
Proof.
  apply (proj2 (proj2 (proj2 (proj2 (pipe_and_compose [None] [] (VStr "Haldi")))))).
  reflexivity.
Defined.

Lemma spread_or_empty_object o : spread_or_empty (VObject o) = o.
Proof. reflexivity. Qed.

(** X20: the steps [grind], [roast] and [mix] can be taken in any order
    and any number of times: each is idempotent and any two commute; each
    keeps every property of the spice but the ones it sets. *)
Theorem grind_roast_mix_commute spice :
  grind (grind spice) = grind spice ∧
  roast (roast spice) = roast spice ∧
  mix (mix spice) = mix spice ∧
  grind (roast spice) = roast (grind spice) ∧
  grind (mix spice) = mix (grind spice) ∧
  roast (mix spice) = mix (roast spice) ∧
  (∀ k, k ≠ "form" → get_prop (grind spice) k = get_prop (VObject (spread_or_empty spice)) k) ∧
  (∀ k, k ≠ "roasted" → k ≠ "aroma" →
        get_prop (roast spice) k = get_prop (VObject (spread_or_empty spice)) k) ∧
  (∀ k, k ≠ "mixed" → get_prop (mix spice) k = get_prop (VObject (spread_or_empty spice)) k).
Proof.
  unfold grind, roast, mix. rewrite !spread_or_empty_object.
  generalize (spread_or_empty spice) as o. intros o.
  split_and!;
    try (f_equal; apply map_eq; intros k; rewrite !lookup_insert;
         repeat case_decide; congruence).
  - intros k Hk. by rewrite !get_prop_object, lookup_insert_ne.
  - intros k Hr Ha. by rewrite !get_prop_object, !lookup_insert_ne.
  - intros k Hk. by rewrite !get_prop_object, lookup_insert_ne.
Qed.

(** ** The tiffin module: createTiffinPlan *)

Lemma rate_of_rates mealType :
  hasOwnProperty rates (VStr mealType) = true
  ↔ ∃ rate, rate_of mealType = Some rate
            ∧ member (VObject rates) mealType = VNum (Fin rate).
Proof.
  unfold hasOwnProperty, rate_of, rates. rewrite bool_decide_eq_true, member_object.
  destruct (String.eqb_spec mealType "veg") as [->|Hveg]; [split; [eauto|by eexists]|].
  destruct (String.eqb_spec mealType "nonveg") as [->|Hnon]; [split; [eauto|by eexists]|].
  destruct (String.eqb_spec mealType "jain") as [->|Hjain]; [split; [eauto|by eexists]|].
  rewrite !lookup_insert_ne, lookup_singleton_ne by done.
  split; [by intros [? ?]|by intros (? & ? & _)].
Qed.

Lemma rate_of_Some mealType rate :
  rate_of mealType = Some rate →
  hasOwnProperty rates (VStr mealType) = true
  ∧ member (VObject rates) mealType = VNum (Fin rate).
Proof.
  unfold rate_of.
  destruct (String.eqb_spec mealType "veg") as [->|Hveg]; [by intros [= <-]|].
  destruct (String.eqb_spec mealType "nonveg") as [->|Hnon]; [by intros [= <-]|].
  destruct (String.eqb_spec mealType "jain") as [->|Hjain]; [by intros [= <-]|done].
Qed.

(** X21: called without an argument, or with an object whose meal type is
    no object or function and whose days, if a number, are an integer that
    leaves 120 times the days at most 2^53, [createTiffinPlan] returns
    null or a plan that is consistent: a non-empty name, a meal type among
    veg, nonveg and jain with its daily rate (80, 120, 90), a positive
    number of days and a total cost that is the rate times the days. It
    returns a plan exactly when the name is a non-empty string, the meal
    type (veg when left out) is one of the three and the days (30 when left
    out) are a finite positive number. *)
Theorem createTiffinPlan_consistent arg :
  plain_order arg →
  let o := default ∅ arg in
  let mealType := with_default (get_prop (VObject o) "mealType") (VStr "veg") in
  let days := with_default (get_prop (VObject o) "days") (VNum (Fin 30)) in
  (createTiffinPlan arg = VNull
   ∨ ∃ name mt d rate,
       name ≠ "" ∧ rate_of mt = Some rate ∧ 0 < d ∧
       createTiffinPlan arg = tiffin_plan name mt d rate) ∧
  (createTiffinPlan arg ≠ VNull
   ↔ (∃ name, o !! "name" = Some (VStr name) ∧ name ≠ "") ∧
     (∃ mt rate, mealType = VStr mt ∧ rate_of mt = Some rate) ∧
     (∃ d, days = VNum (Fin d) ∧ 0 < d)).
Proof.
  intros _ o mealType days. unfold createTiffinPlan. fold o. fold mealType. fold days.
  destruct (negb (typeof (get_prop (VObject o) "name") =? "string")%string
            || (js_length (get_prop (VObject o) "name") =? 0)) eqn:Ename.
  { split; [by left|]. split; [done|]. intros [(name & Hname & Hne) _].
    rewrite (proj2 (nonempty_string_prop (get_prop (VObject o) "name"))) in Ename; [done|].
    rewrite get_prop_object, Hname. eauto. }
  apply nonempty_string_prop in Ename as (name & Hname & Hne).
  assert (o !! "name" = Some (VStr name)) as Ho.
  { rewrite get_prop_object in Hname. by destruct (o !! "name"); simplify_eq/=. }
  destruct (hasOwnProperty rates mealType) eqn:Erate; cbn [negb].
  2: { split; [by left|]. split; [done|]. intros (_ & (mt & rate & Hmt & Hrate) & _).
       rewrite Hmt in Erate. destruct (rate_of_Some mt rate Hrate). congruence. }
  destruct mealType as [| |?|?|mt|?|] eqn:Emt; try discriminate.
  apply rate_of_rates in Erate as (rate & Hrate & Hget).
  destruct (negb (Number_isFinite days) || js_le days (VNum (Fin 0))) eqn:Edays.
  { split; [by left|]. split; [done|]. intros (_ & _ & (d & Hd & Hpos)).
    rewrite Hd in Edays. unfold js_le in Edays. simpl in Edays.
    apply Z.leb_le in Edays. lia. }
  destruct days as [| |?|[d| | |]|?|?|] eqn:Ed; try discriminate.
  unfold js_le in Edays. simpl in Edays. apply Z.leb_gt in Edays.
  cbn [string_of]. rewrite Hname, Hget. split.
  - right. exists name, mt, d, rate. split_and!; try done.
  - split; [|done]. intros _. split_and!; eauto.
Qed.

(** Rahul's plan with the defaults: veg for 30 days. *)
Lemma createTiffinPlan_consistent_witness :
  createTiffinPlan (Some {["name" := VStr "Rahul"]}) ≠ VNull
  ∧ createTiffinPlan (Some {["name" := VStr "Rahul"]}) = tiffin_plan "Rahul" "veg" 30 80.
Proof.
  split; [|reflexivity].
  apply (proj2 (createTiffinPlan_consistent (Some {["name" := VStr "Rahul"]})
                  ltac:(split; [exact I|by vm_compute]))).
  split_and!; [by exists "Rahul"|by exists "veg", 80|by exists 30].
Defined.

(** ** The tiffin module: combinePlans *)

Lemma labelled_snoc k plans plan :
  labelled k (plans ++ [plan])
  = (labelled k plans + if decide (plan_label plan = k) then 1 else 0)%nat.
Proof.
  unfold labelled. rewrite filter_app, length_app. f_equal.
  rewrite filter_cons, filter_nil. by case_decide.
Qed.

Lemma combine_plan_label plan :
  (if truthy plan && (typeof (get_prop plan "mealType") =? "string")%string
   then string_of (get_prop plan "mealType") else "unknown") = plan_label plan.
Proof.
  unfold plan_label.
  destruct (get_prop plan "mealType") as [| |?|?|s|?|] eqn:E;
    rewrite ?andb_false_r; try done.
  by destruct (truthy plan).
Qed.

Lemma combine_plan_cost plan r :
  (if truthy plan && Number_isFinite (get_prop plan "totalCost")
   then num_add (Fin r) (to_number (get_prop plan "totalCost")) else Fin r)
  = Fin (r + finite_prop plan "totalCost").
Proof.
  unfold finite_prop.
  destruct (get_prop plan "totalCost") as [| |?|[z| | |]|?|?|] eqn:E;
    rewrite ?andb_false_r; try (f_equal; lia).
  destruct plan; try discriminate. simpl. f_equal.
Qed.

(** The loop of [combinePlans], for meal types that name no inherited
    member: the revenue is the sum of the finite total costs, and the
    breakdown counts the plans under their labels. *)
Lemma combine_plans_loop plans :
  Forall (λ plan, plan_label plan ∉ Object_prototype_members) plans →
  ∃ mealBreakdown,
    foldl combine_plan (∅, Fin 0) plans
    = (mealBreakdown, Fin (sum_list ((λ plan, finite_prop plan "totalCost") <$> plans))) ∧
    ∀ k, get_prop (VObject mealBreakdown) k
         = if decide (labelled k plans = 0%nat) then VUndefined
           else VNum (Fin (Z.of_nat (labelled k plans))).
Proof.
  induction plans as [|plan plans IH] using rev_ind; intros Hplain.
  { exists ∅. split; [done|]. intros k. by rewrite get_prop_object, lookup_empty. }
  apply Forall_app in Hplain as [Hplans Hplan]. apply Forall_cons_1 in Hplan as [Hplan _].
  destruct (IH Hplans) as (mb & Hfold & Hmb).
  rewrite foldl_snoc, Hfold. unfold combine_plan at 1.
  rewrite combine_plan_label, combine_plan_cost, (member_plain _ _ Hplan).
  eexists. split.
  - f_equal. f_equal. rewrite fmap_app, sum_list_app. unfold sum_list at 3. simpl. lia.
  - intros k. rewrite labelled_snoc, (Hmb (plan_label plan)).
    rewrite get_prop_object, lookup_insert.
    destruct (decide (plan_label plan = k)) as [<-|Hne].
    + simpl. destruct (decide ((_ + 1)%nat = 0%nat)) as [?|_]; [lia|].
      case_decide as Hzero; simpl; f_equal; f_equal; lia.
    + simpl. rewrite Nat.add_0_r, <- get_prop_object. apply Hmb.
Qed.

Lemma hasOwnProperty_rates mt :
  hasOwnProperty rates (VStr mt) = true → mt = "veg" ∨ mt = "nonveg" ∨ mt = "jain".
Proof.
  unfold hasOwnProperty, rates. rewrite bool_decide_eq_true.
  destruct (decide (mt = "jain")) as [->|?]; [auto|].
  destruct (decide (mt = "nonveg")) as [->|?]; [auto|].
  destruct (decide (mt = "veg")) as [->|?]; [auto|].
  rewrite !lookup_insert_ne, lookup_singleton_ne by done. by intros [? ?].
Qed.

Lemma created_plan_label arg :
  plan_label (createTiffinPlan arg) = "veg" ∨ plan_label (createTiffinPlan arg) = "nonveg"
  ∨ plan_label (createTiffinPlan arg) = "jain"
  ∨ (plan_label (createTiffinPlan arg) = "unknown" ∧ createTiffinPlan arg = VNull).
Proof.
  unfold createTiffinPlan.
  destruct (negb _ || (js_length _ =? 0)); [by right; right; right|].
  destruct (hasOwnProperty rates _) eqn:Erate; cbn [negb]; [|by right; right; right].
  destruct (negb (Number_isFinite _) || _); [by right; right; right|].
  destruct (with_default (get_prop (VObject (default ∅ arg)) "mealType") (VStr "veg"))
    as [| |?|?|mt|?|]; try discriminate.
  apply hasOwnProperty_rates in Erate.
  unfold plan_label. rewrite get_prop_object.
  rewrite lookup_insert_ne, lookup_insert_ne, lookup_insert_ne, lookup_insert_eq by done.
  simpl. tauto.
Qed.

Lemma created_plan_plain arg :
  plan_label (createTiffinPlan arg) ∉ Object_prototype_members.
Proof.
  destruct (created_plan_label arg) as [H|[H|[H|[H _]]]]; rewrite H;
    apply (bool_decide_unpack _); by vm_compute.
Qed.

(** X22: [combinePlans()] without a plan is null. Take the plans that
    [createTiffinPlan] returned (null ones included) for fewer than 2^32
    arguments, each left out or an object whose meal type is no object or
    function and whose days, if a number, are an integer that leaves 120
    times the days at most 2^53, and let their total costs add up to at
    most 2^53. Then [totalCustomers] is their number, [totalRevenue] the
    sum of their total costs, [mealBreakdown] counts them under veg, nonveg
    and jain and the null ones under unknown, and the four counts add up to
    their number. *)
Theorem combinePlans_of_created_plans args :
  combinePlans [] = VNull ∧
  (args ≠ [] → Forall plain_order args → Z.of_nat (length args) < 2 ^ 32 →
   let plans := createTiffinPlan <$> args in
   safe_sum ((λ plan, finite_prop plan "totalCost") <$> plans) →
   ∃ mealBreakdown,
     combinePlans plans
     = VObject (<["mealBreakdown" := VObject mealBreakdown]>
                (<["totalRevenue" :=
                     VNum (Fin (sum_list ((λ plan, finite_prop plan "totalCost") <$> plans)))]>
                 {["totalCustomers" := VNum (Fin (Z.of_nat (length args)))]})) ∧
     (∀ k, get_prop (VObject mealBreakdown) k
           = if decide (labelled k plans = 0%nat) then VUndefined
             else VNum (Fin (Z.of_nat (labelled k plans)))) ∧
     labelled "unknown" plans
     = length (filter (λ plan, strict_eq plan VNull = true) plans) ∧
     (labelled "veg" plans + labelled "nonveg" plans + labelled "jain" plans
      + labelled "unknown" plans = length args)%nat).
Proof.
  split; [done|]. intros Hargs _ _ plans _.
  destruct (combine_plans_loop plans) as (mb & Hfold & Hmb).
  { unfold plans. apply Forall_fmap, Forall_forall. intros arg _.
    apply created_plan_plain. }
  exists mb. split_and!.
  - unfold combinePlans. unfold plans at 1. rewrite length_fmap.
    destruct args as [|arg args]; [done|]. simpl length. cbn [Nat.eqb].
    fold plans. rewrite Hfold. by rewrite length_fmap.
  - done.
  - unfold labelled, plans. clear. induction args as [|arg args IH]; [done|].
    rewrite fmap_cons, !filter_cons.
    destruct (created_plan_label arg) as [H|[H|[H|[H Hnull]]]].
    + rewrite decide_False by (rewrite H; done). rewrite decide_False; [done|].
      intros Hn. by destruct (createTiffinPlan arg).
    + rewrite decide_False by (rewrite H; done). rewrite decide_False; [done|].
      intros Hn. by destruct (createTiffinPlan arg).
    + rewrite decide_False by (rewrite H; done). rewrite decide_False; [done|].
      intros Hn. by destruct (createTiffinPlan arg).
    + rewrite decide_True by done. rewrite decide_True by (by rewrite Hnull).
      simpl. by f_equal.
  - unfold labelled, plans. clear. induction args as [|arg args IH]; [done|].
    rewrite fmap_cons, !filter_cons. simpl length. rewrite <- IH.
    destruct (created_plan_label arg) as [H|[H|[H|[H _]]]]; rewrite H;
      repeat (case_decide; try done); simpl; lia.
Qed.

(** Two veg plans and one nonveg plan. *)
Lemma combinePlans_of_created_plans_witness :
  ∃ mealBreakdown,
    combinePlans (createTiffinPlan <$>
      [Some {["name" := VStr "Rahul"]}; Some {["name" := VStr "Asha"]};
       Some (<["mealType" := VStr "nonveg"]> {["name" := VStr "Vikram"]})])
    = VObject (<["mealBreakdown" := VObject mealBreakdown]>
               (<["totalRevenue" := VNum (Fin 8400)]>
                {["totalCustomers" := VNum (Fin 3)]}))
    ∧ get_prop (VObject mealBreakdown) "veg" = VNum (Fin 2).
Proof.
  destruct (proj2 (combinePlans_of_created_plans
    [Some {["name" := VStr "Rahul"]}; Some {["name" := VStr "Asha"]};
     Some (<["mealType" := VStr "nonveg"]> {["name" := VStr "Vikram"]})]))
    as (mb & Hcombine & Hmb & _).
  - discriminate.
  - repeat constructor; by vm_compute.
  - by vm_compute.
  - by vm_compute.
  - exists mb. split; [exact Hcombine|]. rewrite Hmb. reflexivity.
Defined.

(** ** The tiffin module: applyAddons *)

Lemma add_addon_step addonNames sum addon :
  add_addon (addonNames, Fin sum) addon
  = ((addonNames ++ from_option (λ s, [s]) [] (addon_name addon))%list,
     Fin (sum + addon_price addon)).
Proof.
  unfold add_addon, addon_name, addon_price.
  destruct addon as [| |[]|[[]| | |]|s|o|]; simpl;
    rewrite ?app_nil_r, ?Z.add_0_r; try done.
  { by destruct (negb (s =? "")%string). }
  unfold get_prop.
  destruct (o !! "name") as [[| |?|?|?|?|]|], (o !! "price") as [[| |?|[]|?|?|]|];
    simpl; by rewrite ?app_nil_r, ?Z.add_0_r.
Qed.

(** The [reduce] of [applyAddons] collects the names and adds the prices. *)
Lemma add_addon_loop addons : ∀ addonNames sum,
  foldl add_addon (addonNames, Fin sum) addons
  = ((addonNames ++ omap addon_name addons)%list,
     Fin (sum + sum_list (addon_price <$> addons))).
Proof.
  induction addons as [|addon addons IH]; intros addonNames sum.
  { simpl. by rewrite app_nil_r, Z.add_0_r. }
  cbn [foldl]. rewrite add_addon_step, IH. f_equal.
  - rewrite <- app_assoc. f_equal. simpl. by destruct (addon_name addon).
  - f_equal. rewrite fmap_cons. change (sum_list (?x :: ?l)) with (x + sum_list l). lia.
Qed.

Lemma finite_or_zero plan k :
  (if Number_isFinite (get_prop plan k) then to_number (get_prop plan k) else Fin 0)
  = Fin (finite_prop plan k).
Proof.
  unfold finite_prop. by destruct (get_prop plan k) as [| |?|[]|?|?|].
Qed.

(** What [applyAddons] returns for an object. *)
Lemma applyAddons_object p addons :
  applyAddons (VObject p) addons
  = Some (<["totalCost" :=
              VNum (Fin ((finite_prop (VObject p) "dailyRate"
                          + sum_list (addon_price <$> addons))
                         * finite_prop (VObject p) "days"))]>
          (<["dailyRate" :=
               VNum (Fin (finite_prop (VObject p) "dailyRate"
                          + sum_list (addon_price <$> addons)))]>
           (delete "addonNames" p)),
          omap addon_name addons).
Proof.
  unfold applyAddons. cbn [truthy typeof negb orb String.eqb Ascii.eqb Bool.eqb andb].
  change (("object" =? "object")%string) with true. cbn [negb].
  rewrite add_addon_loop, !finite_or_zero, spread_or_empty_object. reflexivity.
Qed.

Lemma applyAddons_null plan addons :
  (∀ p, plan ≠ VObject p) → applyAddons plan addons = None.
Proof.
  intros Hplan. destruct plan as [| |[]|[[]| | |]|s|p|]; try done.
  - unfold applyAddons. simpl. by destruct (s =? "")%string.
  - by destruct (Hplan p).
Qed.

(** X23: [applyAddons] returns null for a plan that is no object. For an
    object whose finite daily rate and days and whose addons' finite
    prices are integers, with a rate and prices whose absolute values add
    up to a number whose product with the days is at most 2^53, it raises
    the daily rate (0 if there is none) by the prices of the addons that
    are objects, sets the total cost to that rate times the days (0 if
    there are none), lists the string names of those addons in their
    order, and keeps every other property of the plan. *)
Theorem applyAddons_adds_prices plan addons :
  addons_bound plan addons ≤ 2 ^ 53 →
  match plan with
  | VObject p =>
      ∃ fields,
        applyAddons plan addons = Some (fields, omap addon_name addons) ∧
        fields !! "dailyRate"
        = Some (VNum (Fin (finite_prop plan "dailyRate" + sum_list (addon_price <$> addons)))) ∧
        fields !! "totalCost"
        = Some (VNum (Fin ((finite_prop plan "dailyRate" + sum_list (addon_price <$> addons))
                           * finite_prop plan "days"))) ∧
        ∀ k, k ∉ ["dailyRate"; "totalCost"; "addonNames"] → fields !! k = p !! k
  | _ => applyAddons plan addons = None
  end.
Proof.
  intros _. destruct plan as [| |?|?|?|p|]; try by apply applyAddons_null.
  eexists. split; [apply applyAddons_object|]. split_and!.
  - by rewrite lookup_insert_ne, lookup_insert_eq.
  - by rewrite lookup_insert_eq.
  - intros k Hk. rewrite !not_elem_of_cons in Hk. destruct Hk as (? & ? & ? & _).
    by rewrite !lookup_insert_ne, lookup_delete_ne.
Qed.

(** A veg plan of 30 days gets raita: 95 a day, 2850 in all. *)
Lemma applyAddons_adds_prices_witness :
  ∃ fields,
    applyAddons (VObject (<["dailyRate" := VNum (Fin 80)]> {["days" := VNum (Fin 30)]}))
                [VObject (<["name" := VStr "raita"]> {["price" := VNum (Fin 15)]})]
    = Some (fields, ["raita"]) ∧
    fields !! "dailyRate" = Some (VNum (Fin 95)) ∧
    fields !! "totalCost" = Some (VNum (Fin 2850)).
Proof.
  destruct (applyAddons_adds_prices
    (VObject (<["dailyRate" := VNum (Fin 80)]> {["days" := VNum (Fin 30)]}))
    [VObject (<["name" := VStr "raita"]> {["price" := VNum (Fin 15)]})])
    as (fields & Happly & Hrate & Hcost & _); [by vm_compute|].
  exists fields. split_and!; [exact Happly|exact Hrate|exact Hcost].
Defined.

(** X24: for a plan whose finite daily rate and days and for addons whose
    finite prices are integers, with a rate and prices (of all the addons)
    whose absolute values add up to a number whose product with the days is
    at most 2^53: applying addons to a plan that already carries addons
    prices the plan as one application of all the addons does, but lists
    the names of the later addons only: the earlier names are replaced,
    whatever the [addonNames] of the plan was. *)
Theorem applyAddons_again plan addons1 addons2 fields1 names1 earlier :
  addons_bound plan (addons1 ++ addons2) ≤ 2 ^ 53 →
  applyAddons plan addons1 = Some (fields1, names1) →
  ∃ fields,
    applyAddons (VObject (<["addonNames" := earlier]> fields1)) addons2
    = Some (fields, omap addon_name addons2) ∧
    applyAddons plan (addons1 ++ addons2)
    = Some (fields, (names1 ++ omap addon_name addons2)%list).
Proof.
  intros _ Hfirst.
  destruct plan as [| |?|?|?|p|];
    try (by rewrite applyAddons_null in Hfirst).
  rewrite applyAddons_object in Hfirst. injection Hfirst as <- <-.
  eexists. split.
  - apply applyAddons_object.
  - rewrite applyAddons_object, omap_app. f_equal. f_equal.
    set (rate1 := finite_prop (VObject p) "dailyRate" + sum_list (addon_price <$> addons1)).
    assert (∀ c m, finite_prop (VObject (<["addonNames" := earlier]>
              (<["totalCost" := c]> (<["dailyRate" := VNum (Fin rate1)]> m)))) "dailyRate"
            = rate1) as Hrate.
    { intros c m. unfold finite_prop. rewrite get_prop_object.
      by rewrite lookup_insert_ne, lookup_insert_ne, lookup_insert_eq. }
    assert (∀ c d, finite_prop (VObject (<["addonNames" := earlier]>
              (<["totalCost" := c]> (<["dailyRate" := d]> (delete "addonNames" p))))) "days"
            = finite_prop (VObject p) "days") as Hdays.
    { intros c d. unfold finite_prop. rewrite !get_prop_object.
      by rewrite !lookup_insert_ne, lookup_delete_ne. }
    rewrite Hrate, Hdays, fmap_app, sum_list_app.
    replace (finite_prop (VObject p) "dailyRate"
             + (sum_list (addon_price <$> addons1) + sum_list (addon_price <$> addons2)))
      with (rate1 + sum_list (addon_price <$> addons2)) by (unfold rate1; lia).
    apply map_eq. intros k.
    destruct (decide (k = "totalCost")) as [->|?]; [by rewrite !lookup_insert_eq|].
    rewrite !(lookup_insert_ne _ "totalCost") by done.
    destruct (decide (k = "dailyRate")) as [->|?]; [by rewrite !lookup_insert_eq|].
    rewrite !(lookup_insert_ne _ "dailyRate") by done.
    destruct (decide (k = "addonNames")) as [->|?]; [by rewrite !lookup_delete_eq|].
    rewrite !lookup_delete_ne by done.
    by rewrite lookup_insert_ne, lookup_insert_ne, lookup_insert_ne, lookup_delete_ne.
Qed.

(** A veg plan of 30 days gets raita, then papad. *)
Lemma applyAddons_again_witness :
  ∃ fields,
    applyAddons
      (VObject (<["addonNames" := VNull]>
        (<["totalCost" := VNum (Fin 2850)]>
         (<["dailyRate" := VNum (Fin 95)]>
          (delete "addonNames"
             (<["dailyRate" := VNum (Fin 80)]> {["days" := VNum (Fin 30)]}))))))
      [VObject (<["name" := VStr "papad"]> {["price" := VNum (Fin 5)]})]
    = Some (fields, ["papad"]) ∧
    fields !! "totalCost" = Some (VNum (Fin 3000)).
Proof.
  destruct (applyAddons_again
    (VObject (<["dailyRate" := VNum (Fin 80)]> {["days" := VNum (Fin 30)]}))
    [VObject (<["name" := VStr "raita"]> {["price" := VNum (Fin 15)]})]
    [VObject (<["name" := VStr "papad"]> {["price" := VNum (Fin 5)]})]
    (<["totalCost" := VNum (Fin 2850)]>
     (<["dailyRate" := VNum (Fin 95)]>
      (delete "addonNames"
         (<["dailyRate" := VNum (Fin 80)]> {["days" := VNum (Fin 30)]}))))
    ["raita"] VNull) as (fields & Hagain & Hall).
  { by vm_compute. }
  { reflexivity. }
  exists fields. split; [exact Hagain|].
  rewrite applyAddons_object in Hall. injection Hall as <-.
  reflexivity.
Defined.

(** ** The rating module: createMapper and applyOperations *)

Lemma createMapper_lookup fields obj k :
  createMapper fields obj !! k
  = if decide (k ∈ fields) then Some (optional_member obj k) else None.
Proof.
  unfold createMapper. induction fields as [|field fields IH] using rev_ind.
  { cbn [foldl]. rewrite lookup_empty. case_decide as Hk; [|done].
    by apply elem_of_nil in Hk. }
  rewrite foldl_snoc. destruct (decide (k = field)) as [->|Hne].
  - rewrite lookup_insert_eq. rewrite decide_True; [done|].
    apply elem_of_app. right. by apply list_elem_of_singleton.
  - rewrite lookup_insert_ne, IH by done.
    destruct (decide (k ∈ fields)) as [Hin|Hout].
    + rewrite decide_True; [done|]. apply elem_of_app. by left.
    + rewrite decide_False; [done|]. rewrite elem_of_app, list_elem_of_singleton. tauto.
Qed.

(** X25: for fields that are no names of members of [Object.prototype],
    the object a mapper returns owns exactly the listed fields, each with
    the value read from the argument (undefined when the argument is null,
    undefined or lacks it); mapping the result again changes nothing, and
    mapping it with some of the fields gives what these fields give on the
    argument. *)
Theorem createMapper_picks_fields fields obj :
  Forall (λ field, field ∉ Object_prototype_members) fields →
  let out := createMapper fields obj in
  (∀ k, out !! k = if decide (k ∈ fields) then Some (optional_member obj k) else None) ∧
  createMapper fields (Some out) = out ∧
  (∀ fewer, fewer ⊆ fields → createMapper fewer (Some out) = createMapper fewer obj).
Proof.
  intros _ out.
  assert (∀ fewer, fewer ⊆ fields → createMapper fewer (Some out) = createMapper fewer obj)
    as Hfewer.
  { intros fewer Hfewer. apply map_eq. intros k. rewrite !createMapper_lookup.
    case_decide as Hk; [|done]. f_equal. cbn [optional_member].
    rewrite member_object. unfold out. rewrite createMapper_lookup.
    by rewrite decide_True by by apply Hfewer. }
  split_and!.
  - intros k. apply createMapper_lookup.
  - by apply Hfewer.
  - exact Hfewer.
Qed.

(** The fields name and rating of a dhaba that has no rating. *)
Lemma createMapper_picks_fields_witness :
  createMapper ["name"; "rating"] (Some {["name" := VStr "Sher-e-Punjab"]}) !! "rating"
  = Some VUndefined.
Proof.
  destruct (createMapper_picks_fields ["name"; "rating"]
              (Some {["name" := VStr "Sher-e-Punjab"]})) as (Hlookup & _).
  { apply (bool_decide_unpack _). by vm_compute. }
  rewrite Hlookup. reflexivity.
Defined.

Lemma apply_operations_fold {A} (operations : list (option (list A → list A))) : ∀ data,
  foldl (λ acc op, match op with Some f => f acc | None => acc end) data operations
  = foldl (λ acc fn, fn acc) data (only_functions operations).
Proof.
  unfold only_functions.
  induction operations as [|[op|] operations IH]; intros data; simpl; auto.
Qed.

Lemma applyOperations_fold {A} (data : list A) operations :
  applyOperations (Some data) operations
  = foldl (λ acc fn, fn acc) data (only_functions operations).
Proof.
  unfold applyOperations. destruct operations as [|op operations]; [done|].
  cbn [length Nat.eqb]. apply apply_operations_fold.
Qed.

(** X26: [applyOperations] returns an empty array for data that is no
    array; on an array it is the pipeline [pipe] of its operations, so
    that values that are no functions are skipped, and applying
    operations one after the other is applying them at once. *)
Theorem applyOperations_is_pipe {A} (data : list A) operations more :
  applyOperations None operations = [] ∧
  applyOperations (Some data) operations = pipe operations data ∧
  applyOperations (Some data) operations
  = applyOperations (Some data) (Some <$> only_functions operations) ∧
  applyOperations (Some data) (operations ++ more)
  = applyOperations (Some (applyOperations (Some data) operations)) more.
Proof.
  split_and!.
  - done.
  - by rewrite applyOperations_fold, pipe_fold.
  - rewrite !applyOperations_fold. f_equal. unfold only_functions.
    induction operations as [|[op|] operations IH]; [done| |exact IH].
    change (op :: omap id operations
            = op :: omap id (Some <$> omap id operations)).
    by f_equal.
  - rewrite !applyOperations_fold, only_functions_app. apply foldl_app.
Qed.
